(** * bf.c: the Brainfuck interpreter of the smallutils repository

    A shallow embedding of [src/bf.c] (loader [cread], bracket lookups
    [flookup] and [blookup], and the dispatch loop of [main]) together with
    the properties of the interpreter stated in the specification.

    Conventions of the embedding.
    - A [char] is the integer [0 .. 255] of its bit pattern; arithmetic on a
      cell wraps modulo 256 ([to_char]).  The sign of plain [char] plays no
      role: the program only compares cells with 0 and with ASCII codes.
    - A pointer into [code] or [data] is the integer offset from the start
      of the array.  Pointer arithmetic is arithmetic on the offset; a read
      or write through an offset outside the array is undefined behaviour,
      which the model reports as [None] / [Undefined].
    - [unsigned count] is an integer with wrap-around modulo 2^32.
    - [stdin] is the list of bytes still to be read, [stdout] the list of
      bytes written so far. *)

From Stdlib Require Import ZArith Lia String Ascii.
From stdpp Require Import base numbers option list.

Local Open Scope Z_scope.

(** ** Characters and constants *)

Definition capacity : Z := 30000.

(** [EOF] of <stdio.h>. *)
Definition EOF : Z := -1.

(** Conversion of an [int] to [char] (bit pattern). *)
Definition to_char (v : Z) : Z := v mod 256.

(** Conversion to [unsigned]. *)
Definition to_unsigned (v : Z) : Z := v mod 2 ^ 32.

Definition chr (a : ascii) : Z := Z.of_N (N_of_ascii a).

Definition GT : Z := Eval cbv in chr ">".
Definition LT : Z := Eval cbv in chr "<".
Definition PLUS : Z := Eval cbv in chr "+".
Definition MINUS : Z := Eval cbv in chr "-".
Definition DOT : Z := Eval cbv in chr ".".
Definition COMMA : Z := Eval cbv in chr ",".
Definition LBRACKET : Z := Eval cbv in chr "[".
Definition RBRACKET : Z := Eval cbv in chr "]".
Definition NUL : Z := 0.

(** The bytes of a string literal, for writing programs down. *)
Definition bytes_of (s : string) : list Z := chr <$> list_ascii_of_string s.

Definition is_byte (v : Z) : Prop := 0 ≤ v < 256.

(** The eight instruction characters. *)
Definition is_instruction (c : Z) : bool :=
  (c =? GT) || (c =? LT) || (c =? PLUS) || (c =? MINUS) ||
  (c =? DOT) || (c =? COMMA) || (c =? LBRACKET) || (c =? RBRACKET).

(** ** Memory: the two 30000-byte arrays *)

(** [*p] as an rvalue, where [p = mem + i]. *)
Definition load (mem : list Z) (i : Z) : option Z :=
  if decide (0 ≤ i) then mem !! Z.to_nat i else None.

(** [*p = v], where [p = mem + i]. *)
Definition store (mem : list Z) (i : Z) (v : Z) : option (list Z) :=
  if decide (0 ≤ i < Z.of_nat (length mem))
  then Some (<[Z.to_nat i := to_char v]> mem)
  else None.

(** [memset(mem, 0x00, 30000)] *)
Definition zeroed : list Z := replicate (Z.to_nat capacity) 0.

(** ** flookup and blookup *)

(** The loop of [flookup]; [rest] holds the bytes from [*ip] to the end of
    the array, [ip] is the offset of its head.
<<
    for (++ip; !( *ip == ']' && count == 0); ++ip) {
        if ( *ip == '[') ++count;
        if ( *ip == ']') --count;
    }
    return ip;
>> *)
Fixpoint flookup_loop (rest : list Z) (ip : Z) (count : Z) : option Z :=
  match rest with
  | [] => None
  | c :: rest' =>
      if (c =? RBRACKET) && (count =? 0) then Some ip
      else
        let count := if c =? LBRACKET then to_unsigned (count + 1) else count in
        let count := if c =? RBRACKET then to_unsigned (count - 1) else count in
        flookup_loop rest' (ip + 1) count
  end.

Definition flookup (code : list Z) (ip : Z) : option Z :=
  if decide (0 ≤ ip + 1)
  then flookup_loop (drop (Z.to_nat (ip + 1)) code) (ip + 1) 0
  else None.

(** The loop of [blookup]; [before] holds the bytes from [*ip] down to the
    start of the array, [ip] is the offset of its head.
<<
    for (--ip; !( *ip == '[' && count == 0); --ip) {
        if ( *ip == ']') ++count;
        if ( *ip == '[') --count;
    }
    return ip;
>> *)
Fixpoint blookup_loop (before : list Z) (ip : Z) (count : Z) : option Z :=
  match before with
  | [] => None
  | c :: before' =>
      if (c =? LBRACKET) && (count =? 0) then Some ip
      else
        let count := if c =? RBRACKET then to_unsigned (count + 1) else count in
        let count := if c =? LBRACKET then to_unsigned (count - 1) else count in
        blookup_loop before' (ip - 1) count
  end.

Definition blookup (code : list Z) (ip : Z) : option Z :=
  if decide (0 ≤ ip ≤ Z.of_nat (length code))
  then blookup_loop (reverse (take (Z.to_nat ip) code)) (ip - 1) 0
  else None.

(** ** cread *)

(** [getchar()] on a stream of pending bytes. *)
Definition getchar (stdin : list Z) : Z * list Z :=
  match stdin with
  | [] => (EOF, [])
  | b :: stdin' => (b, stdin')
  end.

(** The loop of [cread]; [p] is the offset of the write pointer.
<<
    while ((current = getchar()) != EOF)
        *code++ = current;
>> *)
Fixpoint cread_loop (stdin : list Z) (code : list Z) (p : Z) : option (list Z) :=
  match stdin with
  | [] => Some code
  | current :: stdin' =>
      match store code p current with
      | Some code' => cread_loop stdin' code' (p + 1)
      | None => None
      end
  end.

Definition cread (stdin : list Z) : option (list Z) :=
  cread_loop stdin zeroed 0.

(** ** The machine of main *)

Record machine := Machine {
  code : list Z;
  ip : Z;
  data : list Z;
  dp : Z;
  stdin : list Z;
  stdout : list Z
}.

Definition set_ip (m : machine) (i : Z) : machine :=
  Machine (code m) i (data m) (dp m) (stdin m) (stdout m).

Definition set_dp (m : machine) (d : Z) : machine :=
  Machine (code m) (ip m) (data m) d (stdin m) (stdout m).

Definition set_data (m : machine) (t : list Z) : machine :=
  Machine (code m) (ip m) t (dp m) (stdin m) (stdout m).

Definition set_stdin (m : machine) (i : list Z) : machine :=
  Machine (code m) (ip m) (data m) (dp m) i (stdout m).

Definition set_stdout (m : machine) (o : list Z) : machine :=
  Machine (code m) (ip m) (data m) (dp m) (stdin m) o.

(** The state of [main] after [memset(data, ...)] and [cread(code)]. *)
Definition boot (program : list Z) (input : list Z) : machine :=
  Machine program 0 zeroed 0 input [].

(** What one turn of the loop comes to: the loop continues with a new
    machine, the loop condition fails and [main] returns, or an access
    falls outside an array. *)
Inductive outcome :=
  | Next (m : machine)
  | Exit
  | Undefined.

(** The body of the [switch] on the character [c = *ip]. *)
Definition dispatch (c : Z) (m : machine) : outcome :=
  if c =? GT then Next (set_ip (set_dp m (dp m + 1)) (ip m + 1))
  else if c =? LT then Next (set_ip (set_dp m (dp m - 1)) (ip m + 1))
  else if c =? PLUS then
    match load (data m) (dp m) with
    | Some v =>
        match store (data m) (dp m) (v + 1) with
        | Some t => Next (set_ip (set_data m t) (ip m + 1))
        | None => Undefined
        end
    | None => Undefined
    end
  else if c =? MINUS then
    match load (data m) (dp m) with
    | Some v =>
        match store (data m) (dp m) (v - 1) with
        | Some t => Next (set_ip (set_data m t) (ip m + 1))
        | None => Undefined
        end
    | None => Undefined
    end
  else if c =? DOT then
    match load (data m) (dp m) with
    | Some v => Next (set_ip (set_stdout m (stdout m ++ [v])) (ip m + 1))
    | None => Undefined
    end
  else if c =? COMMA then
    let (current, rest) := getchar (stdin m) in
    match store (data m) (dp m) current with
    | Some t => Next (set_ip (set_data (set_stdin m rest) t) (ip m + 1))
    | None => Undefined
    end
  else if c =? LBRACKET then
    match load (data m) (dp m) with
    | Some v =>
        if v =? 0 then
          match flookup (code m) (ip m) with
          | Some j => Next (set_ip m j)
          | None => Undefined
          end
        else Next (set_ip m (ip m + 1))
    | None => Undefined
    end
  else if c =? RBRACKET then
    match load (data m) (dp m) with
    | Some v =>
        if negb (v =? 0) then
          match blookup (code m) (ip m) with
          | Some j => Next (set_ip m j)
          | None => Undefined
          end
        else Next (set_ip m (ip m + 1))
    | None => Undefined
    end
  else Next (set_ip m (ip m + 1)).

(** One turn of the loop [while ( *ip != 0 )] with its [switch] on [*ip]. *)
Definition step (m : machine) : outcome :=
  match load (code m) (ip m) with
  | None => Undefined
  | Some c => if c =? NUL then Exit else dispatch c m
  end.

(** What a bounded run comes to: [main] returns, leaving the machine [m];
    the run meets undefined behaviour; or the turns granted are used up. *)
Inductive result :=
  | Finished (m : machine)
  | Crashed
  | OutOfFuel (m : machine).

(** The [while] loop of [main], for at most [fuel] turns. *)
Fixpoint run (fuel : nat) (m : machine) : result :=
  match fuel with
  | O => OutOfFuel m
  | S fuel' =>
      match step m with
      | Exit => Finished m
      | Undefined => Crashed
      | Next m' => run fuel' m'
      end
  end.

(** [main]: the whole of standard input is the program; by the time the
    loop starts, [getchar] has returned [EOF] and the stream is empty. *)
Definition main (input : list Z) (fuel : nat) : result :=
  match cread input with
  | Some program => run fuel (boot program [])
  | None => Crashed
  end.

(** What a run that returns from [main] leaves behind. *)
Definition returns (r : result) (P : machine -> Prop) : Prop :=
  match r with
  | Finished m => P m
  | _ => False
  end.

(** ** Bracket nesting *)

(** The nesting scan of the loader in the specification, for a pair of
    bracket characters: the counter starts at [depth], goes up on [up] and
    down on [down]; the scan fails ([None]) when the counter goes negative
    and otherwise yields the final counter. *)
Fixpoint nesting (up down : Z) (l : list Z) (depth : Z) : option Z :=
  match l with
  | [] => Some depth
  | c :: l' =>
      let depth' :=
        if c =? up then depth + 1 else if c =? down then depth - 1 else depth in
      if depth' <? 0 then None else nesting up down l' depth'
  end.

(** A program is balanced when the scan neither goes negative (unmatched
    close) nor ends above zero (unmatched open). *)
Definition balanced (program : list Z) : bool :=
  match nesting LBRACKET RBRACKET program 0 with
  | Some d => d =? 0
  | None => false
  end.

(** The common shape of the two lookup loops: the offset, within the bytes
    [l] visited in order, of the first [down] met with [count = 0]. *)
Fixpoint scan (up down : Z) (l : list Z) (count : Z) : option nat :=
  match l with
  | [] => None
  | c :: l' =>
      if (c =? down) && (count =? 0) then Some 0%nat
      else
        let count := if c =? up then to_unsigned (count + 1) else count in
        let count := if c =? down then to_unsigned (count - 1) else count in
        S <$> scan up down l' count
  end.

(** What [cread] leaves in [code] for an input that fits. *)
Definition padded (input : list Z) : list Z :=
  input ++ replicate (Z.to_nat capacity - length input) 0.

(** ** Auxiliary definitions for the statements *)

(** [n] turns of the loop, as long as each one continues. *)
Fixpoint steps (n : nat) (m : machine) : outcome :=
  match n with
  | O => Next m
  | S n' =>
      match step m with
      | Next m' => steps n' m'
      | o => o
      end
  end.

(** The instruction pointer with which the loop continues, if it does. *)
Definition next_ip (o : outcome) : option Z :=
  match o with
  | Next m => Some (ip m)
  | _ => None
  end.

(** A program that does no input and no output. *)
Definition no_io (program : list Z) : bool :=
  forallb (fun c => negb (c =? COMMA) && negb (c =? DOT)) program.

(** The dispatch of the table in the specification: as [dispatch], except
    that a taken bracket continues one past the bracket that matches it. *)
Definition dispatch_past (c : Z) (m : machine) : outcome :=
  if c =? LBRACKET then
    match load (data m) (dp m) with
    | Some v =>
        if v =? 0 then
          match flookup (code m) (ip m) with
          | Some j => Next (set_ip m (j + 1))
          | None => Undefined
          end
        else Next (set_ip m (ip m + 1))
    | None => Undefined
    end
  else if c =? RBRACKET then
    match load (data m) (dp m) with
    | Some v =>
        if negb (v =? 0) then
          match blookup (code m) (ip m) with
          | Some j => Next (set_ip m (j + 1))
          | None => Undefined
          end
        else Next (set_ip m (ip m + 1))
    | None => Undefined
    end
  else dispatch c m.

Definition step_past (m : machine) : outcome :=
  match load (code m) (ip m) with
  | None => Undefined
  | Some c => if c =? NUL then Exit else dispatch_past c m
  end.

Fixpoint run_past (fuel : nat) (m : machine) : result :=
  match fuel with
  | O => OutOfFuel m
  | S fuel' =>
      match step_past m with
      | Exit => Finished m
      | Undefined => Crashed
      | Next m' => run_past fuel' m'
      end
  end.

(** A run that has come to an end, one way or the other. *)
Definition settled (r : result) : Prop :=
  match r with
  | OutOfFuel _ => False
  | _ => True
  end.

(** What holds of the machine with which the loop continues. *)
Definition after (o : outcome) (P : machine -> Prop) : Prop :=
  match o with
  | Next m => P m
  | _ => False
  end.

(** Two machines that agree on everything but the two streams. *)
Definition same_core (m1 m2 : machine) : Prop :=
  code m1 = code m2 /\ ip m1 = ip m2 /\ data m1 = data m2 /\ dp m1 = dp m2.

(** The next [n] bytes of the program, from [*ip] on. *)
Definition window (m : machine) (n : nat) : list Z :=
  take n (drop (Z.to_nat (ip m)) (code m)).

(** What [getchar] can deliver: values of [unsigned char]. *)
Definition all_bytes (input : list Z) : bool :=
  forallb (fun v => (0 <=? v) && (v <? 256)) input.

(** An input without a zero byte. *)
Definition nul_free (input : list Z) : bool :=
  forallb (fun v => negb (v =? NUL)) input.

(** The bytes of the program at the offsets from [i] up to, not including,
    [j]. *)
Definition segment (program : list Z) (i j : Z) : list Z :=
  take (Z.to_nat (j - i)) (drop (Z.to_nat i) program).

(** No byte of [l] is the character [c]. *)
Definition none_of (c : Z) (l : list Z) : bool :=
  forallb (fun x => negb (x =? c)) l.

(** A machine on the program loaded from [input], with [ip] within the
    loaded bytes or on their terminator, and a tape of the right size. *)
Definition inside (input : list Z) (m : machine) : Prop :=
  code m = padded input /\
  0 ≤ ip m ≤ Z.of_nat (length input) /\
  Z.of_nat (length (data m)) = capacity.

(** ** Sample runs *)

Example run_plus_plus_dot :
  returns (main (bytes_of "++.") 4) (fun m => stdout m = [2]).
Proof. vm_compute. reflexivity. Qed.

Example run_move_idiom :
  returns (main (bytes_of "+[>+<-]>.") 20)
          (fun m => dp m = 1 /\ load (data m) 1 = Some 1 /\ stdout m = [1]).
Proof. vm_compute. repeat split. Qed.

Example run_echo :
  returns (run 3 (boot (padded (bytes_of ",.")) [65])) (fun m => stdout m = [65]).
Proof. vm_compute. reflexivity. Qed.

Example run_clear_cell :
  returns (run 20 (Machine (padded (bytes_of "[-]")) 0 (<[0%nat := 5]> zeroed) 0 [] []))
          (fun m => load (data m) 0 = Some 0 /\ ip m = 3).
Proof. vm_compute. done. Qed.

(** Closed equations between large arrays are checked by evaluation of
    both sides, without writing the arrays out. *)
Ltac by_vm :=
  lazymatch goal with
  | |- ?a = ?b => vm_cast_no_check (@eq_refl _ b)
  end.

(** ** Memory lemmas *)

Lemma load_Some mem i v :
  load mem i = Some v -> 0 ≤ i < Z.of_nat (length mem) /\ mem !! Z.to_nat i = Some v.
Proof.
  unfold load. case_decide; [|done]. intros H1.
  split; [|done]. apply lookup_lt_Some in H1. lia.
Qed.

Lemma load_of_nat mem (k : nat) : load mem (Z.of_nat k) = mem !! k.
Proof. unfold load. rewrite decide_True by lia. by rewrite Nat2Z.id. Qed.

Lemma store_in_range mem i v :
  0 ≤ i < Z.of_nat (length mem) ->
  store mem i v = Some (<[Z.to_nat i := to_char v]> mem).
Proof. intros Hi. unfold store. by rewrite decide_True. Qed.

Lemma to_char_byte v : is_byte v -> to_char v = v.
Proof. unfold is_byte, to_char. intros. by apply Z.mod_small. Qed.

Lemma to_char_is_byte v : is_byte (to_char v).
Proof. unfold is_byte, to_char. apply Z.mod_pos_bound. lia. Qed.

Lemma length_zeroed : Z.of_nat (length zeroed) = capacity.
Proof. unfold zeroed. rewrite length_replicate. unfold capacity. lia. Qed.

(** ** The loader copies its input verbatim *)

Lemma cread_loop_spec input : forall done rest,
  Forall is_byte input ->
  (length input ≤ length rest)%nat ->
  cread_loop input (done ++ rest) (Z.of_nat (length done)) =
    Some (done ++ input ++ drop (length input) rest).
Proof.
  induction input as [|b input IH]; intros done rest Hb Hlen.
  - simpl. by rewrite drop_0.
  - destruct rest as [|r rest]; [simpl in Hlen; lia|].
    apply Forall_cons in Hb as [Hb Hbs].
    cbn [cread_loop]. rewrite store_in_range.
    2:{ rewrite length_app. simpl. lia. }
    rewrite Nat2Z.id.
    replace (<[length done := to_char b]> (done ++ r :: rest))
      with ((done ++ [b]) ++ rest).
    2:{ rewrite insert_app_r_alt, Nat.sub_diag by lia. simpl.
        rewrite to_char_byte by done. by rewrite <- app_assoc. }
    replace (Z.of_nat (length done) + 1) with (Z.of_nat (length (done ++ [b]))).
    2:{ rewrite length_app. simpl. lia. }
    rewrite IH; [|done|simpl in Hlen; lia].
    by rewrite <- app_assoc.
Qed.

Lemma cread_padded input :
  Forall is_byte input -> Z.of_nat (length input) ≤ capacity ->
  cread input = Some (padded input).
Proof.
  intros Hb Hlen. unfold cread.
  assert (length input ≤ length zeroed)%nat as Hle.
  { pose proof length_zeroed. lia. }
  pose proof (cread_loop_spec input [] zeroed Hb Hle) as H.
  change (cread_loop input zeroed 0 = Some (input ++ drop (length input) zeroed)) in H.
  rewrite H. unfold padded, zeroed. by rewrite drop_replicate.
Qed.

(** ** The lookup loops on a balanced program *)

Lemma to_unsigned_small v : 0 ≤ v < 2 ^ 32 -> to_unsigned v = v.
Proof. intros. unfold to_unsigned. by apply Z.mod_small. Qed.

Section Scan.
Variables up down : Z.
Hypothesis up_down : up ≠ down.

Lemma nesting_app l1 l2 h :
  nesting up down (l1 ++ l2) h = nesting up down l1 h ≫= nesting up down l2.
Proof.
  revert h. induction l1 as [|c l1 IH]; intros h; [done|].
  simpl. destruct (_ <? 0); [done|]. apply IH.
Qed.

Lemma nesting_nonneg l : forall h e,
  0 ≤ h -> nesting up down l h = Some e -> 0 ≤ e.
Proof.
  induction l as [|c l IH]; intros h e Hh; simpl.
  - intros [= <-]. done.
  - destruct (Z.ltb_spec (if c =? up then h + 1 else if c =? down then h - 1 else h) 0);
      [done|]. by apply IH.
Qed.

(** From height [count + 1 + m] the scan of a list whose nesting comes
    down to [m] or below finds its [down], inside the list. *)
Lemma scan_finds l : forall count m e,
  0 ≤ count -> 0 ≤ m ->
  count + Z.of_nat (length l) < 2 ^ 32 ->
  nesting up down l (count + 1 + m) = Some e -> e ≤ m ->
  exists k, scan up down l count = Some k /\ l !! k = Some down.
Proof.
  induction l as [|c l IH]; intros count m e Hc Hm Hlen Hn He.
  - simpl in Hn. injection Hn as <-. lia.
  - cbn [nesting scan] in *. cbn [length] in Hlen.
    destruct (Z.eqb_spec c up) as [->|Hup].
    + rewrite (proj2 (Z.eqb_neq up down)) by done. simpl.
      destruct (_ <? 0) in Hn; [done|].
      rewrite to_unsigned_small by lia.
      destruct (IH (count + 1) m e) as (k & -> & Hk); try lia.
      { by replace (count + 1 + 1 + m) with (count + 1 + m + 1) by lia. }
      exists (S k). done.
    + destruct (Z.eqb_spec c down) as [->|Hdown].
      * destruct (Z.eqb_spec count 0) as [->|Hnz]; simpl.
        { exists 0%nat. done. }
        destruct (_ <? 0) in Hn; [done|].
        rewrite to_unsigned_small by lia.
        destruct (IH (count - 1) m e) as (k & -> & Hk); try lia.
        { by replace (count - 1 + 1 + m) with (count + 1 + m - 1) by lia. }
        exists (S k). done.
      * simpl. destruct (_ <? 0) in Hn; [done|].
        destruct (IH count m e) as (k & -> & Hk); try lia; [done|].
        exists (S k). done.
Qed.

Lemma scan_hit l : forall count k,
  scan up down l count = Some k -> (k < length l)%nat /\ l !! k = Some down.
Proof.
  induction l as [|c l IH]; intros count k; simpl; [done|].
  destruct (Z.eqb_spec c down) as [->|Hdown]; simpl.
  - destruct (count =? 0).
    + intros [= <-]. split; [lia|done].
    + destruct (scan _ _ l _) as [k'|] eqn:Hs; simpl; [|done].
      intros [= <-]. apply IH in Hs as [? ?]. split; [lia|done].
  - destruct (scan _ _ l _) as [k'|] eqn:Hs; simpl; [|done].
    intros [= <-]. apply IH in Hs as [? ?]. split; [lia|done].
Qed.
(** Up to the place it reports, the scan has seen the nesting come down
    from [count] to 0 without going below. *)
Lemma scan_nesting l : forall count k,
  scan up down l count = Some k ->
  0 ≤ count -> count + Z.of_nat (length l) < 2 ^ 32 ->
  nesting up down (take k l) count = Some 0.
Proof.
  induction l as [|c l IH]; intros count k; [done|].
  cbn [scan length]. intros Hs Hc Hlen.
  destruct (Z.eqb_spec c down) as [->|Hdown].
  - destruct (Z.eqb_spec count 0) as [->|Hnz]; simpl in Hs.
    { by injection Hs as <-. }
    rewrite (proj2 (Z.eqb_neq down up)) in Hs by done.
    rewrite to_unsigned_small in Hs by lia.
    destruct (scan _ _ l _) as [k'|] eqn:Hk; [|done].
    injection Hs as <-. cbn [take nesting].
    rewrite (proj2 (Z.eqb_neq down up)), Z.eqb_refl by done.
    rewrite (proj2 (Z.ltb_ge (count - 1) 0)) by lia.
    apply (IH _ _ Hk); lia.
  - simpl in Hs. destruct (Z.eqb_spec c up) as [->|Hup].
    + rewrite to_unsigned_small in Hs by lia.
      destruct (scan _ _ l _) as [k'|] eqn:Hk; [|done].
      injection Hs as <-. cbn [take nesting]. rewrite Z.eqb_refl.
      rewrite (proj2 (Z.ltb_ge (count + 1) 0)) by lia.
      apply (IH _ _ Hk); lia.
    + destruct (scan _ _ l _) as [k'|] eqn:Hk; [|done].
      injection Hs as <-. cbn [take nesting].
      rewrite (proj2 (Z.eqb_neq c up)), (proj2 (Z.eqb_neq c down)) by done.
      rewrite (proj2 (Z.ltb_ge count 0)) by lia.
      apply (IH _ _ Hk); lia.
Qed.
End Scan.

(** Walking a list backwards with the brackets exchanged passes through the
    same depths. *)
Lemma nesting_reverse up down l : forall a b,
  up ≠ down -> 0 ≤ a ->
  nesting up down l a = Some b ->
  nesting down up (reverse l) b = Some a.
Proof.
  induction l as [|c l IH]; intros a b Hne Ha; simpl.
  - intros [= <-]. done.
  - set (a' := if c =? up then a + 1 else if c =? down then a - 1 else a).
    destruct (Z.ltb_spec a' 0) as [|Hge]; [done|].
    intros Hn. rewrite reverse_cons, nesting_app, (IH _ _ Hne Hge Hn). simpl.
    assert ((if c =? down then a' + 1 else if c =? up then a' - 1 else a') = a)
      as ->.
    { subst a'. destruct (Z.eqb_spec c up), (Z.eqb_spec c down); lia. }
    by rewrite (proj2 (Z.ltb_ge a 0)).
Qed.

Lemma flookup_loop_scan rest : forall ip count,
  flookup_loop rest ip count =
    (fun k : nat => ip + Z.of_nat k) <$> scan LBRACKET RBRACKET rest count.
Proof.
  induction rest as [|c rest IH]; intros ip count; simpl; [done|].
  destruct (_ && _); simpl; [f_equal; lia|].
  rewrite IH. destruct (scan _ _ rest _); simpl; [f_equal; lia|done].
Qed.

Lemma blookup_loop_scan before : forall ip count,
  blookup_loop before ip count =
    (fun k : nat => ip - Z.of_nat k) <$> scan RBRACKET LBRACKET before count.
Proof.
  induction before as [|c before IH]; intros ip count; simpl; [done|].
  destruct (_ && _); simpl; [f_equal; lia|].
  rewrite IH. destruct (scan _ _ before _); simpl; [f_equal; lia|done].
Qed.

(** Where a lookup returns, it returns the offset of the other bracket. *)
Lemma flookup_Some code i j :
  flookup code i = Some j ->
  i < j < Z.of_nat (length code) /\ load code j = Some RBRACKET.
Proof.
  unfold flookup. case_decide as Hi; [|done].
  rewrite flookup_loop_scan.
  destruct (scan _ _ _ 0) as [k|] eqn:Hk; [|done]. intros [= <-].
  apply scan_hit in Hk as [Hlt Hk].
  rewrite length_drop in Hlt. rewrite lookup_drop in Hk.
  split; [lia|]. unfold load. rewrite decide_True by lia.
  by replace (Z.to_nat (i + 1 + Z.of_nat k)) with (Z.to_nat (i + 1) + k)%nat by lia.
Qed.

Lemma blookup_Some code i j :
  blookup code i = Some j ->
  0 ≤ j < i /\ load code j = Some LBRACKET.
Proof.
  unfold blookup. case_decide as Hi; [|done].
  rewrite blookup_loop_scan.
  destruct (scan _ _ _ 0) as [k|] eqn:Hk; [|done]. intros [= <-].
  apply scan_hit in Hk as [Hlt Hk].
  rewrite length_reverse, length_take in Hlt.
  rewrite reverse_lookup in Hk by (rewrite length_take; lia).
  rewrite length_take, lookup_take_lt in Hk by lia.
  split; [lia|]. unfold load. rewrite decide_True by lia.
  by replace (Z.to_nat (i - 1 - Z.of_nat k))
    with (Z.to_nat i `min` length code - S k)%nat by lia.
Qed.

(** What lies between a bracket and the one its lookup returns is balanced:
    the lookup returns the matching bracket. *)
Lemma flookup_segment code i j :
  Z.of_nat (length code) < 2 ^ 32 ->
  flookup code i = Some j -> balanced (segment code (i + 1) j) = true.
Proof.
  intros Hlen. unfold flookup. case_decide as Hi; [|done].
  rewrite flookup_loop_scan.
  destruct (scan _ _ _ 0) as [k|] eqn:Hk; [|done]. intros [= <-].
  apply scan_nesting in Hk; [|done|done|rewrite length_drop; lia].
  unfold balanced, segment.
  replace (Z.to_nat (i + 1 + Z.of_nat k - (i + 1))) with k by lia.
  by rewrite Hk.
Qed.

Lemma blookup_segment code i j :
  Z.of_nat (length code) < 2 ^ 32 ->
  blookup code i = Some j -> balanced (segment code (j + 1) i) = true.
Proof.
  intros Hlen. unfold blookup. case_decide as Hi; [|done].
  rewrite blookup_loop_scan.
  destruct (scan _ _ _ 0) as [k|] eqn:Hk; [|done]. intros [= <-].
  pose proof (scan_hit _ _ _ _ _ Hk) as [Hlt _].
  rewrite length_reverse, length_take in Hlt.
  apply scan_nesting in Hk;
    [|done|done|rewrite length_reverse, length_take; lia].
  apply nesting_reverse in Hk; [|done|done].
  rewrite take_reverse, reverse_involutive, length_take in Hk.
  unfold balanced, segment.
  replace (Z.to_nat (i - (i - 1 - Z.of_nat k + 1))) with k by lia.
  replace (Z.to_nat (i - 1 - Z.of_nat k + 1)) with (Z.to_nat i - k)%nat by lia.
  rewrite take_drop_commute.
  replace (Z.to_nat i - k + k)%nat with (Z.to_nat i) by lia.
  replace (Z.to_nat i `min` length code - k)%nat with (Z.to_nat i - k)%nat in Hk by lia.
  by rewrite Hk.
Qed.

Lemma balanced_split code (n : nat) c :
  balanced code = true -> code !! n = Some c ->
  exists d, 0 ≤ d /\
    nesting LBRACKET RBRACKET (take n code) 0 = Some d /\
    nesting LBRACKET RBRACKET (c :: drop (S n) code) d = Some 0.
Proof.
  unfold balanced. intros Hb Hc.
  rewrite <- (take_drop_middle code n c Hc), nesting_app in Hb at 1.
  destruct (nesting _ _ (take n code) 0) as [d|] eqn:Hd; [|done].
  cbn [mbind option_bind] in Hb.
  destruct (nesting _ _ (c :: _) d) as [e|] eqn:He; [|done].
  apply Z.eqb_eq in Hb as ->.
  exists d. split; [|done]. by eapply nesting_nonneg, Hd.
Qed.

Lemma flookup_balanced code i :
  balanced code = true -> Z.of_nat (length code) < 2 ^ 32 ->
  load code i = Some LBRACKET ->
  exists j, flookup code i = Some j.
Proof.
  intros Hb Hlen Hi. apply load_Some in Hi as [Hr Hi].
  destruct (balanced_split _ _ _ Hb Hi) as (d & Hd & _ & Hn).
  cbn [nesting] in Hn. rewrite Z.eqb_refl in Hn.
  destruct (_ <? 0) in Hn; [done|].
  destruct (scan_finds LBRACKET RBRACKET ltac:(done)
              (drop (S (Z.to_nat i)) code) 0 d 0) as (k & Hk & _);
    try lia.
  { rewrite length_drop. lia. }
  { by replace (0 + 1 + d) with (d + 1) by lia. }
  exists (i + 1 + Z.of_nat k).
  unfold flookup. rewrite decide_True by lia.
  replace (Z.to_nat (i + 1)) with (S (Z.to_nat i)) by lia.
  by rewrite flookup_loop_scan, Hk.
Qed.

Lemma blookup_balanced code i :
  balanced code = true -> Z.of_nat (length code) < 2 ^ 32 ->
  load code i = Some RBRACKET ->
  exists j, blookup code i = Some j.
Proof.
  intros Hb Hlen Hi. apply load_Some in Hi as [Hr Hi].
  destruct (balanced_split _ _ _ Hb Hi) as (d & Hd & Hpre & Hn).
  cbn [nesting] in Hn.
  change (RBRACKET =? LBRACKET) with false in Hn. rewrite Z.eqb_refl in Hn.
  destruct (Z.ltb_spec (d - 1) 0) in Hn; [done|].
  apply nesting_reverse in Hpre; [|done|done].
  destruct (scan_finds RBRACKET LBRACKET ltac:(done)
              (reverse (take (Z.to_nat i) code)) 0 (d - 1) 0) as (k & Hk & _);
    try lia.
  { rewrite length_reverse, length_take. lia. }
  { by replace (0 + 1 + (d - 1)) with d by lia. }
  exists (i - 1 - Z.of_nat k).
  unfold blookup. rewrite decide_True by lia.
  by rewrite blookup_loop_scan, Hk.
Qed.

(** ** One turn of the loop, instruction by instruction *)

Lemma step_dispatch m c :
  load (code m) (ip m) = Some c -> c ≠ NUL -> step m = dispatch c m.
Proof.
  intros Hc Hnz. unfold step. rewrite Hc.
  by rewrite (proj2 (Z.eqb_neq c NUL)).
Qed.

Lemma step_Exit m : step m = Exit <-> load (code m) (ip m) = Some NUL.
Proof.
  unfold step. destruct (load (code m) (ip m)) as [c|]; [|done].
  destruct (Z.eqb_spec c NUL) as [->|Hc]; [done|].
  split; [|by intros [= ->]].
  unfold dispatch.
  repeat match goal with
         | |- context [if ?b then _ else _] => destruct b
         | |- context [match ?o with Some _ => _ | None => _ end] => destruct o
         | |- context [let (_, _) := ?p in _] => destruct p
         end; done.
Qed.

Lemma dispatch_other c m :
  is_instruction c = false -> dispatch c m = Next (set_ip m (ip m + 1)).
Proof.
  unfold is_instruction, dispatch. intros H.
  repeat (apply orb_false_elim in H as [H ?]).
  by repeat match goal with E : (_ =? _) = false |- _ => rewrite E; clear E end.
Qed.

Lemma dispatch_lbracket m v :
  load (data m) (dp m) = Some v ->
  dispatch LBRACKET m =
    if v =? 0
    then match flookup (code m) (ip m) with
         | Some j => Next (set_ip m j)
         | None => Undefined
         end
    else Next (set_ip m (ip m + 1)).
Proof. intros Hv. unfold dispatch. simpl. by rewrite Hv. Qed.

Lemma dispatch_rbracket m v :
  load (data m) (dp m) = Some v ->
  dispatch RBRACKET m =
    if v =? 0
    then Next (set_ip m (ip m + 1))
    else match blookup (code m) (ip m) with
         | Some j => Next (set_ip m j)
         | None => Undefined
         end.
Proof. intros Hv. unfold dispatch. simpl. rewrite Hv. by destruct (v =? 0). Qed.

(** ** Jump resolution never misses on a balanced program *)

Lemma balanced_lookups (program : list Z) (i : Z) :
  Z.of_nat (length program) = capacity ->
  balanced program = true ->
  (load program i = Some LBRACKET ->
     exists j, flookup program i = Some j /\ i < j < capacity /\
               load program j = Some RBRACKET /\
               balanced (segment program (i + 1) j) = true) /\
  (load program i = Some RBRACKET ->
     exists j, blookup program i = Some j /\ 0 ≤ j < i /\
               load program j = Some LBRACKET /\
               balanced (segment program (j + 1) i) = true).
Proof.
  intros Hlen Hb.
  assert (Z.of_nat (length program) < 2 ^ 32) as Hsmall
    by (rewrite Hlen; unfold capacity; lia).
  split; intros Hi.
  - destruct (flookup_balanced _ _ Hb Hsmall Hi) as [j Hj].
    exists j. split; [done|].
    pose proof (flookup_segment _ _ _ Hsmall Hj) as Hseg.
    apply flookup_Some in Hj as [Hr Hj]. rewrite <- Hlen. done.
  - destruct (blookup_balanced _ _ Hb Hsmall Hi) as [j Hj].
    exists j. split; [done|].
    pose proof (blookup_segment _ _ _ Hsmall Hj) as Hseg.
    apply blookup_Some in Hj as [Hr Hj]. done.
Qed.

(** C8. On a balanced program held in the 30000-byte array, [flookup] called
    at any '[' and [blookup] called at any ']' return (they are total
    functions of the array and the offset alone), and what they return is an
    offset inside the array: that of a ']' after, respectively of a '['
    before, the starting bracket, with a balanced stretch of program in
    between. The searches never run off the array. *)
Theorem lookups_stay_in_program (program : list Z) (i : Z) :
  Z.of_nat (length program) = capacity ->
  balanced program = true ->
  (load program i = Some LBRACKET ->
     exists j, flookup program i = Some j /\ i < j < capacity /\
               load program j = Some RBRACKET /\
               balanced (segment program (i + 1) j) = true) /\
  (load program i = Some RBRACKET ->
     exists j, blookup program i = Some j /\ 0 ≤ j < i /\
               load program j = Some LBRACKET /\
               balanced (segment program (j + 1) i) = true).
Proof. apply balanced_lookups. Qed.

Lemma lookups_stay_in_program_witness :
  (exists j, flookup (padded (bytes_of "+[>[-]<-]")) 1 = Some j /\ 1 < j < capacity /\
             load (padded (bytes_of "+[>[-]<-]")) j = Some RBRACKET /\
             balanced (segment (padded (bytes_of "+[>[-]<-]")) (1 + 1) j) = true) /\
  (exists j, blookup (padded (bytes_of "+[>[-]<-]")) 8 = Some j /\ 0 ≤ j < 8 /\
             load (padded (bytes_of "+[>[-]<-]")) j = Some LBRACKET /\
             balanced (segment (padded (bytes_of "+[>[-]<-]")) (j + 1) 8) = true).
Proof.
  split.
  - apply (lookups_stay_in_program (padded (bytes_of "+[>[-]<-]")) 1);
      vm_compute; reflexivity.
  - apply (lookups_stay_in_program (padded (bytes_of "+[>[-]<-]")) 8);
      vm_compute; reflexivity.
Defined.

(** ** Where a taken bracket continues *)

(** C3, as stated, fails: on "[]" with a zero cell the turn at the '['
    continues at offset 1, the matching ']' itself, not one past it; on
    "+[]" the turn at the ']' with a non-zero cell continues at offset 1,
    the matching '[' itself. *)
Lemma taken_bracket_lands_on_match :
  (let m := boot (padded (bytes_of "[]")) [] in
   balanced (code m) = true /\
   load (code m) (ip m) = Some LBRACKET /\ load (data m) (dp m) = Some 0 /\
   flookup (code m) (ip m) = Some 1 /\
   next_ip (step m) = Some 1 /\
   next_ip (step m) ≠ (fun j => j + 1) <$> flookup (code m) (ip m)) /\
  after (steps 2 (boot (padded (bytes_of "+[]")) []))
    (fun m =>
       balanced (code m) = true /\
       load (code m) (ip m) = Some RBRACKET /\ load (data m) (dp m) = Some 1 /\
       blookup (code m) (ip m) = Some 1 /\
       next_ip (step m) = Some 1 /\
       next_ip (step m) ≠ (fun j => j + 1) <$> blookup (code m) (ip m)).
Proof. vm_compute. repeat split; discriminate. Qed.

(** C3, amended. On a balanced program, a turn of the loop at a '[' with
    [*dp == 0] continues at [flookup(ip)], the offset of the matching ']'
    (what lies between the two is balanced), and a turn at a ']' with
    [*dp != 0] continues at [blookup(ip)], the offset of the matching '[';
    every other turn continues at [ip + 1]. *)
Theorem taken_bracket_continues_at_match (m : machine) (c v : Z) :
  Z.of_nat (length (code m)) = capacity ->
  balanced (code m) = true ->
  load (code m) (ip m) = Some c -> c ≠ NUL ->
  load (data m) (dp m) = Some v ->
  if (c =? LBRACKET) && (v =? 0) then
    exists j, flookup (code m) (ip m) = Some j /\
              load (code m) j = Some RBRACKET /\
              balanced (segment (code m) (ip m + 1) j) = true /\
              step m = Next (set_ip m j)
  else if (c =? RBRACKET) && negb (v =? 0) then
    exists j, blookup (code m) (ip m) = Some j /\
              load (code m) j = Some LBRACKET /\
              balanced (segment (code m) (j + 1) (ip m)) = true /\
              step m = Next (set_ip m j)
  else
    exists m', step m = Next m' /\ ip m' = ip m + 1.
Proof.
  intros Hlen Hb Hc Hnz Hv.
  destruct (balanced_lookups (code m) (ip m) Hlen Hb) as [Hf Hbk].
  rewrite (step_dispatch m c Hc Hnz).
  destruct (Z.eqb_spec c LBRACKET) as [->|HL]; simpl.
  { rewrite (dispatch_lbracket m v Hv). destruct (v =? 0); simpl.
    - destruct (Hf Hc) as (j & Hj & _ & Hj' & Hseg). exists j. by rewrite Hj.
    - eexists. split; [done|done]. }
  destruct (Z.eqb_spec c RBRACKET) as [->|HR]; simpl.
  { rewrite (dispatch_rbracket m v Hv). destruct (v =? 0); simpl.
    - eexists. split; [done|done].
    - destruct (Hbk Hc) as (j & Hj & _ & Hj' & Hseg). exists j. by rewrite Hj. }
  unfold dispatch.
  rewrite (proj2 (Z.eqb_neq c LBRACKET)), (proj2 (Z.eqb_neq c RBRACKET)) by done.
  rewrite Hv.
  destruct (load_Some _ _ _ Hv) as [Hr _].
  rewrite !store_in_range by done.
  destruct (getchar (stdin m)) as [cur rest].
  rewrite !store_in_range by done.
  repeat match goal with
         | |- context [if ?b then _ else _] => destruct b
         end; eexists; (split; [reflexivity|reflexivity]).
Qed.

Lemma taken_bracket_continues_at_match_witness :
  exists j, flookup (code (boot (padded (bytes_of "[]")) [])) 0 = Some j /\
            load (code (boot (padded (bytes_of "[]")) [])) j = Some RBRACKET /\
            balanced (segment (code (boot (padded (bytes_of "[]")) [])) (0 + 1) j) = true /\
            step (boot (padded (bytes_of "[]")) []) =
              Next (set_ip (boot (padded (bytes_of "[]")) []) j).
Proof.
  refine (taken_bracket_continues_at_match
            (boot (padded (bytes_of "[]")) []) LBRACKET 0 _ _ _ _ _);
    vm_compute; (reflexivity || discriminate).
Defined.

(** ** Continuing at the matching bracket or one past it *)

(** A turn of the variant is a turn of [main]'s loop, or two of them: the
    jump onto the matching bracket and the fall through it. *)
Lemma step_past_step m :
  step_past m = step m \/
  exists m1 m2, step m = Next m1 /\ step m1 = Next m2 /\ step_past m = Next m2.
Proof.
  unfold step_past. destruct (load (code m) (ip m)) as [c|] eqn:Hc.
  2:{ left. unfold step. by rewrite Hc. }
  destruct (Z.eqb_spec c NUL) as [->|Hnz].
  { left. unfold step. by rewrite Hc. }
  rewrite (step_dispatch m c Hc Hnz). unfold dispatch_past.
  destruct (Z.eqb_spec c LBRACKET) as [->|HL].
  { destruct (load (data m) (dp m)) as [v|] eqn:Hv.
    2:{ left. unfold dispatch. simpl. by rewrite Hv. }
    rewrite (dispatch_lbracket m v Hv).
    destruct (Z.eqb_spec v 0) as [->|Hv0]; [|by left].
    destruct (flookup (code m) (ip m)) as [j|] eqn:Hj; [|by left].
    right. exists (set_ip m j), (set_ip m (j + 1)).
    split; [done|]. split; [|done].
    apply flookup_Some in Hj as [_ Hj].
    rewrite (step_dispatch (set_ip m j) RBRACKET Hj) by done.
    by rewrite (dispatch_rbracket (set_ip m j) 0 Hv). }
  destruct (Z.eqb_spec c RBRACKET) as [->|HR]; [|by left].
  destruct (load (data m) (dp m)) as [v|] eqn:Hv.
  2:{ left. unfold dispatch. simpl. by rewrite Hv. }
  rewrite (dispatch_rbracket m v Hv).
  destruct (Z.eqb_spec v 0) as [->|Hv0]; [by left|]. simpl.
  destruct (blookup (code m) (ip m)) as [j|] eqn:Hj; [|by left].
  right. exists (set_ip m j), (set_ip m (j + 1)).
  split; [done|]. split; [|done].
  apply blookup_Some in Hj as [_ Hj].
  rewrite (step_dispatch (set_ip m j) LBRACKET Hj) by done.
  rewrite (dispatch_lbracket (set_ip m j) v Hv).
  by rewrite (proj2 (Z.eqb_neq v 0)).
Qed.

Lemma run_past_run n : forall m r,
  settled r -> run_past n m = r -> exists n', run n' m = r.
Proof.
  induction n as [|n IH]; intros m r Hr; simpl.
  { intros <-. done. }
  destruct (step_past_step m) as [Heq|(m1 & m2 & H1 & H2 & Hp)].
  - rewrite Heq. destruct (step m) as [m'| |] eqn:Hs.
    + intros Hrun. destruct (IH _ _ Hr Hrun) as [n' Hn'].
      exists (S n'). simpl. by rewrite Hs.
    + intros <-. exists 1%nat. simpl. by rewrite Hs.
    + intros <-. exists 1%nat. simpl. by rewrite Hs.
  - rewrite Hp. intros Hrun. destruct (IH _ _ Hr Hrun) as [n' Hn'].
    exists (S (S n')). simpl. by rewrite H1, H2.
Qed.

Lemma run_run_past n : forall m r,
  settled r -> run n m = r -> exists n', run_past n' m = r.
Proof.
  induction n as [n IH] using lt_wf_ind. intros m r Hr.
  destruct n as [|n]; simpl.
  { intros <-. done. }
  destruct (step_past_step m) as [Heq|(m1 & m2 & H1 & H2 & Hp)].
  - destruct (step m) as [m'| |] eqn:Hs.
    + intros Hrun. destruct (IH n ltac:(lia) _ _ Hr Hrun) as [n' Hn'].
      exists (S n'). simpl. by rewrite Heq.
    + intros <-. exists 1%nat. simpl. by rewrite Heq.
    + intros <-. exists 1%nat. simpl. by rewrite Heq.
  - rewrite H1. destruct n as [|n]; simpl.
    { intros <-. done. }
    rewrite H2. intros Hrun.
    destruct (IH n ltac:(lia) _ _ Hr Hrun) as [n' Hn'].
    exists (S n'). simpl. by rewrite Hp.
Qed.

(** C10. On a balanced program, [main]'s loop, where a taken bracket
    continues at the bracket that matches it, and the loop where it
    continues one past that bracket come to the same end: one returns from
    a machine exactly when the other does, and then with the same final
    machine (tape, data pointer, output written, input left); one runs
    into undefined behaviour exactly when the other does; hence one runs
    for ever exactly when the other does. *)
Theorem onto_match_or_past_it (program input : list Z) :
  Z.of_nat (length program) = capacity ->
  balanced program = true ->
  (forall f, (exists n, run n (boot program input) = Finished f) <->
             (exists n, run_past n (boot program input) = Finished f)) /\
  ((exists n, run n (boot program input) = Crashed) <->
   (exists n, run_past n (boot program input) = Crashed)).
Proof.
  intros _ _. split; [intros f|]; split; intros [n Hn].
  - exact (run_run_past n _ (Finished f) I Hn).
  - exact (run_past_run n _ (Finished f) I Hn).
  - exact (run_run_past n _ Crashed I Hn).
  - exact (run_past_run n _ Crashed I Hn).
Qed.

Lemma onto_match_or_past_it_witness :
  (forall f,
     (exists n, run n (boot (padded (bytes_of "++[>+<-]>.")) []) = Finished f) <->
     (exists n, run_past n (boot (padded (bytes_of "++[>+<-]>.")) []) = Finished f)) /\
  ((exists n, run n (boot (padded (bytes_of "++[>+<-]>.")) []) = Crashed) <->
   (exists n, run_past n (boot (padded (bytes_of "++[>+<-]>.")) []) = Crashed)).
Proof.
  apply (onto_match_or_past_it (padded (bytes_of "++[>+<-]>.")) []);
    vm_compute; reflexivity.
Defined.

(** ** Runs from a fresh tape *)

Lemma no_io_lookup program i c :
  no_io program = true -> load program i = Some c -> c ≠ COMMA /\ c ≠ DOT.
Proof.
  unfold no_io. intros Hall Hc. apply load_Some in Hc as [_ Hc].
  rewrite forallb_forall in Hall.
  specialize (Hall c). rewrite <- list_elem_of_In in Hall.
  specialize (Hall (list_elem_of_lookup_2 _ _ _ Hc)).
  apply andb_prop in Hall as [H1 H2].
  apply negb_true_iff in H1, H2. by rewrite Z.eqb_neq in H1, H2.
Qed.

(** Without ',' a turn depends neither on the input nor on the output. *)
Lemma step_same_core m1 m2 :
  same_core m1 m2 ->
  (forall c, load (code m1) (ip m1) = Some c -> c ≠ COMMA) ->
  match step m1, step m2 with
  | Next m1', Next m2' => same_core m1' m2'
  | Exit, Exit | Undefined, Undefined => True
  | _, _ => False
  end.
Proof.
  destruct m1 as [c1 i1 t1 d1 in1 out1], m2 as [c2 i2 t2 d2 in2 out2].
  unfold same_core. simpl. intros (<- & <- & <- & <-) Hcomma.
  unfold step. simpl. destruct (load c1 i1) as [c|]; [|done].
  specialize (Hcomma c eq_refl).
  destruct (c =? NUL); [done|].
  unfold dispatch. simpl.
  rewrite (proj2 (Z.eqb_neq c COMMA)) by done.
  repeat match goal with
         | |- context [if ?b then _ else _] => destruct b
         | |- context [match ?o with Some _ => _ | None => _ end] => destruct o
         end; done.
Qed.

Lemma code_step m m' : step m = Next m' -> code m' = code m.
Proof.
  unfold step. destruct (load _ _) as [c|]; [|done].
  destruct (c =? NUL); [done|]. unfold dispatch.
  repeat match goal with
         | |- context [if ?b then _ else _] => destruct b
         | |- context [match ?o with Some _ => _ | None => _ end] => destruct o
         | |- context [let (_, _) := ?p in _] => destruct p
         end; intros [= <-]; done.
Qed.

Lemma run_same_core n1 : forall n2 m1 m2 f1 f2,
  no_io (code m1) = true -> same_core m1 m2 ->
  run n1 m1 = Finished f1 -> run n2 m2 = Finished f2 ->
  same_core f1 f2.
Proof.
  induction n1 as [|n1 IH]; intros n2 m1 m2 f1 f2 Hio Hsame; [done|].
  destruct n2 as [|n2]; [done|]. simpl.
  pose proof (step_same_core m1 m2 Hsame) as Hstep.
  destruct (step m1) as [m1'| |] eqn:H1, (step m2) as [m2'| |] eqn:H2;
    try done; try (exfalso; apply Hstep; intros c Hc; eapply no_io_lookup; eauto).
  - apply IH.
    + by rewrite (code_step _ _ H1).
    + apply Hstep. intros c Hc. eapply no_io_lookup; eauto.
  - by intros [= <-] [= <-].
Qed.

(** C7. For a balanced program without ',' and '.', any two runs from a
    fresh machine (zeroed tape, [ip] and [dp] at offset 0) that return,
    whatever the number of turns granted to each and whatever is pending
    on the input of each, leave the same tape. *)
Theorem fresh_runs_agree (program in1 in2 : list Z) (n1 n2 : nat) (f1 f2 : machine) :
  balanced program = true ->
  no_io program = true ->
  run n1 (boot program in1) = Finished f1 ->
  run n2 (boot program in2) = Finished f2 ->
  data f1 = data f2.
Proof.
  intros _ Hio H1 H2.
  by destruct (run_same_core n1 n2 (boot program in1) (boot program in2)
                 f1 f2 Hio ltac:(done) H1 H2) as (_ & _ & ? & _).
Qed.

Lemma fresh_runs_agree_witness :
  data (Machine (padded (bytes_of "++[>+<-]>")) 9 (<[1%nat := 2]> zeroed) 1 [] []) =
  data (Machine (padded (bytes_of "++[>+<-]>")) 9 (<[1%nat := 2]> zeroed) 1 [65] []).
Proof.
  refine (fresh_runs_agree (padded (bytes_of "++[>+<-]>")) [] [65] 20 40 _ _ _ _ _ _);
    by_vm.
Defined.

(** ** Cell arithmetic *)

Lemma dispatch_plus m v :
  load (data m) (dp m) = Some v ->
  dispatch PLUS m =
    Next (set_ip (set_data m (<[Z.to_nat (dp m) := to_char (v + 1)]> (data m)))
                 (ip m + 1)).
Proof.
  intros Hv. unfold dispatch. simpl. rewrite Hv.
  destruct (load_Some _ _ _ Hv) as [Hr _]. by rewrite store_in_range.
Qed.

Lemma dispatch_minus m v :
  load (data m) (dp m) = Some v ->
  dispatch MINUS m =
    Next (set_ip (set_data m (<[Z.to_nat (dp m) := to_char (v - 1)]> (data m)))
                 (ip m + 1)).
Proof.
  intros Hv. unfold dispatch. simpl. rewrite Hv.
  destruct (load_Some _ _ _ Hv) as [Hr _]. by rewrite store_in_range.
Qed.

Lemma window_load m n c (k : Z) :
  0 ≤ ip m -> window m n = replicate n c -> 0 ≤ k < Z.of_nat n ->
  load (code m) (ip m + k) = Some c.
Proof.
  intros Hip Hw Hk. unfold load. rewrite decide_True by lia.
  replace (Z.to_nat (ip m + k)) with (Z.to_nat (ip m) + Z.to_nat k)%nat by lia.
  rewrite <- lookup_drop, <- (lookup_take_lt _ n) by lia.
  fold (window m n). rewrite Hw. apply lookup_replicate_2. lia.
Qed.

Section Repeated.
(** An instruction [c] that adds [d] to the current cell. *)
Variables c d : Z.
Hypothesis c_not_NUL : c ≠ NUL.
Hypothesis dispatch_c : forall m v,
  load (data m) (dp m) = Some v ->
  dispatch c m =
    Next (set_ip (set_data m (<[Z.to_nat (dp m) := to_char (v + d)]> (data m)))
                 (ip m + 1)).

Lemma steps_repeated n : forall m v,
  load (data m) (dp m) = Some v -> is_byte v ->
  (forall k, 0 ≤ k < Z.of_nat n -> load (code m) (ip m + k) = Some c) ->
  steps n m =
    Next (set_ip (set_data m (<[Z.to_nat (dp m) := to_char (v + d * Z.of_nat n)]> (data m)))
                 (ip m + Z.of_nat n)).
Proof.
  induction n as [|n IH]; intros m v Hv Hbyte Hcode.
  - cbn [steps]. f_equal. destruct m as [co i t p inp out].
    unfold set_ip, set_data. cbn [code ip data dp stdin stdout] in *. f_equal; [lia|].
    replace (v + d * Z.of_nat 0) with v by lia.
    rewrite to_char_byte by done. symmetry. apply list_insert_id.
    by apply load_Some in Hv as [_ ?].
  - cbn [steps].
    rewrite (step_dispatch m c), (dispatch_c m v Hv); [|by rewrite <- (Hcode 0), Z.add_0_r by lia|done].
    destruct (load_Some _ _ _ Hv) as [Hr Hv'].
    rewrite (IH _ (to_char (v + d))); [| |apply to_char_is_byte|].
    + f_equal. destruct m as [co i t p inp out].
      unfold set_ip, set_data. cbn [code ip data dp stdin stdout] in *. f_equal; [lia|].
      rewrite list_insert_insert_eq. f_equal.
      unfold to_char. rewrite Zplus_mod_idemp_l. f_equal. lia.
    + cbn [set_ip set_data code ip data dp]. unfold load. rewrite decide_True by lia.
      apply list_lookup_insert_eq. lia.
    + intros k Hk. cbn [set_ip set_data code ip data dp]. replace (ip m + 1 + k) with (ip m + (k + 1)) by lia.
      apply Hcode. lia.
Qed.
End Repeated.

(** C6. A '+' leaves [(v + 1) mod 256] in the current cell and a '-' leaves
    [(v - 1) mod 256], so that 255 + 1 = 0 and 0 - 1 = 255; 256 '+' in a
    row, and likewise 256 '-' in a row, bring the machine back to the tape
    it started from, 256 instructions further on. *)
Theorem cell_arithmetic_wraps (m : machine) (v : Z) :
  load (data m) (dp m) = Some v -> is_byte v -> 0 ≤ ip m ->
  (load (code m) (ip m) = Some PLUS ->
     step m = Next (set_ip (set_data m (<[Z.to_nat (dp m) := (v + 1) mod 256]> (data m)))
                           (ip m + 1))) /\
  (load (code m) (ip m) = Some MINUS ->
     step m = Next (set_ip (set_data m (<[Z.to_nat (dp m) := (v - 1) mod 256]> (data m)))
                           (ip m + 1))) /\
  (window m 256 = replicate 256 PLUS -> steps 256 m = Next (set_ip m (ip m + 256))) /\
  (window m 256 = replicate 256 MINUS -> steps 256 m = Next (set_ip m (ip m + 256))) /\
  to_char (255 + 1) = 0 /\ to_char (0 - 1) = 255.
Proof.
  intros Hv Hbyte Hip.
  assert (<[Z.to_nat (dp m) := v]> (data m) = data m) as Hid.
  { apply list_insert_id. by apply load_Some in Hv as [_ ?]. }
  repeat split.
  - intros Hc. rewrite (step_dispatch m PLUS Hc) by done. by apply dispatch_plus.
  - intros Hc. rewrite (step_dispatch m MINUS Hc) by done. by apply dispatch_minus.
  - intros Hw.
    rewrite (steps_repeated PLUS 1 ltac:(done) dispatch_plus 256 m v Hv Hbyte).
    + replace (to_char (v + 1 * Z.of_nat 256)) with v.
      * rewrite Hid. by destruct m.
      * unfold to_char. change (1 * Z.of_nat 256) with (1 * 256).
        rewrite Z_mod_plus_full. symmetry. by apply Z.mod_small.
    + intros k Hk. by apply (window_load m 256).
  - intros Hw.
    rewrite (steps_repeated MINUS (-1) ltac:(done) dispatch_minus 256 m v Hv Hbyte).
    + replace (to_char (v + -1 * Z.of_nat 256)) with v.
      * rewrite Hid. by destruct m.
      * unfold to_char. change (-1 * Z.of_nat 256) with (-1 * 256).
        rewrite Z_mod_plus_full. symmetry. by apply Z.mod_small.
    + intros k Hk. by apply (window_load m 256).
Qed.

Lemma cell_arithmetic_wraps_witness :
  steps 256 (boot (padded (replicate 256 PLUS)) []) =
    Next (set_ip (boot (padded (replicate 256 PLUS)) [])
                 (ip (boot (padded (replicate 256 PLUS)) []) + 256)) /\
  steps 256 (boot (padded (replicate 256 MINUS)) []) =
    Next (set_ip (boot (padded (replicate 256 MINUS)) [])
                 (ip (boot (padded (replicate 256 MINUS)) []) + 256)).
Proof.
  split.
  - destruct (cell_arithmetic_wraps (boot (padded (replicate 256 PLUS)) []) 0)
      as (_ & _ & H & _).
    + vm_compute; reflexivity.
    + unfold is_byte; lia.
    + vm_compute; discriminate.
    + apply H. vm_compute; reflexivity.
  - destruct (cell_arithmetic_wraps (boot (padded (replicate 256 MINUS)) []) 0)
      as (_ & _ & _ & H & _).
    + vm_compute; reflexivity.
    + unfold is_byte; lia.
    + vm_compute; discriminate.
    + apply H. vm_compute; reflexivity.
Defined.

(** ** Input at end of stream *)

Lemma returns_impl r (P Q : machine -> Prop) :
  (forall m, P m -> Q m) -> returns r P -> returns r Q.
Proof. intros HPQ. destruct r; simpl; auto. Qed.

Lemma after_impl o (P Q : machine -> Prop) :
  (forall m, P m -> Q m) -> after o P -> after o Q.
Proof. intros HPQ. destruct o; simpl; auto. Qed.

(** C5, as stated, fails: on the program "," run with its input at end of
    stream, the turn at the ',' leaves 255 in the current cell, not 0. *)
Lemma comma_at_eof_is_not_zero :
  stdin (boot (padded (bytes_of ",")) []) = [] /\
  load (code (boot (padded (bytes_of ",")) [])) 0 = Some COMMA /\
  after (step (boot (padded (bytes_of ",")) []))
    (fun m => load (data m) (dp m) = Some 255 /\ load (data m) (dp m) ≠ Some 0 /\
              ip m = 1) /\
  returns (main (bytes_of ",") 2)
    (fun m => load (data m) (dp m) = Some 255 /\ load (data m) (dp m) ≠ Some 0).
Proof.
  split; [reflexivity|]. split; [vm_compute; reflexivity|]. split.
  - apply (after_impl _ (fun m => load (data m) (dp m) = Some 255 /\ ip m = 1)).
    + intros m [-> ->]. done.
    + vm_compute. done.
  - apply (returns_impl _ (fun m => load (data m) (dp m) = Some 255)).
    + intros m ->. done.
    + vm_compute. done.
Qed.

(** C5, amended. A ',' executed with the input at end of stream stores
    [EOF] converted to [char], that is 255 (all bits set), in the current
    cell and continues at [ip + 1]. *)
Theorem comma_at_eof_stores_EOF (m : machine) :
  load (code m) (ip m) = Some COMMA ->
  stdin m = [] ->
  0 ≤ dp m < Z.of_nat (length (data m)) ->
  step m = Next (set_ip (set_data m (<[Z.to_nat (dp m) := 255]> (data m))) (ip m + 1)).
Proof.
  intros Hc Hin Hdp. rewrite (step_dispatch m COMMA Hc) by done.
  unfold dispatch. simpl. rewrite Hin. simpl.
  rewrite store_in_range by done.
  destruct m as [co i t p inp out]. simpl in Hin. by subst inp.
Qed.

Lemma comma_at_eof_stores_EOF_witness :
  step (boot (padded (bytes_of ",")) []) =
    Next (set_ip (set_data (boot (padded (bytes_of ",")) [])
                           (<[Z.to_nat 0 := 255]> zeroed)) (0 + 1)).
Proof.
  refine (comma_at_eof_stores_EOF (boot (padded (bytes_of ",")) []) _ _ _).
  - vm_compute; reflexivity.
  - reflexivity.
  - vm_compute. split; [discriminate|reflexivity].
Defined.

(** ** Where the loop ends *)

Lemma all_bytes_Forall input : all_bytes input = true -> Forall is_byte input.
Proof.
  unfold all_bytes. rewrite forallb_forall, Forall_forall.
  intros H v Hv. apply list_elem_of_In, H, andb_prop in Hv as [H1 H2].
  unfold is_byte. lia.
Qed.

Lemma nul_free_lookup input (k : nat) v :
  nul_free input = true -> input !! k = Some v -> v ≠ NUL.
Proof.
  unfold nul_free. rewrite forallb_forall. intros H Hk.
  apply list_elem_of_lookup_2, list_elem_of_In, H, negb_true_iff in Hk.
  by apply Z.eqb_neq.
Qed.

Lemma load_padded_input input (k : nat) b :
  input !! k = Some b -> load (padded input) (Z.of_nat k) = Some b.
Proof.
  intros Hk. rewrite load_of_nat. unfold padded. by apply lookup_app_l_Some.
Qed.

Lemma load_padded_end input :
  Z.of_nat (length input) < capacity ->
  load (padded input) (Z.of_nat (length input)) = Some NUL.
Proof.
  intros Hlen. rewrite load_of_nat. unfold padded.
  rewrite lookup_app_r, Nat.sub_diag by lia.
  apply lookup_replicate_2. unfold capacity in *. lia.
Qed.

(** C4, as stated, fails: on the three input bytes '+', NUL, '+' the loop
    ends with [ip] at offset 1, before the end of the three loaded bytes. *)
Lemma stops_before_the_end :
  cread [PLUS; NUL; PLUS] = Some (padded [PLUS; NUL; PLUS]) /\
  returns (main [PLUS; NUL; PLUS] 2)
    (fun m => ip m = 1 /\ ip m ≠ Z.of_nat (length [PLUS; NUL; PLUS]) /\
              load (data m) 0 = Some 1).
Proof.
  split; [by_vm|].
  apply (returns_impl _ (fun m => ip m = 1 /\ load (data m) 0 = Some 1)).
  - intros m [-> ->]. done.
  - vm_compute. done.
Qed.

(** C4, amended. The loop ends exactly when the byte at [ip] is NUL; for a
    loaded input of fewer than 30000 bytes, none of them NUL, and [ip]
    within it, that is exactly when [ip] equals the number of loaded
    bytes. *)
Theorem stops_at_NUL (m : machine) (input : list Z) :
  (step m = Exit <-> load (code m) (ip m) = Some NUL) /\
  (all_bytes input = true -> nul_free input = true ->
   Z.of_nat (length input) < capacity ->
   cread input = Some (code m) ->
   0 ≤ ip m ≤ Z.of_nat (length input) ->
   (step m = Exit <-> ip m = Z.of_nat (length input))).
Proof.
  split; [apply step_Exit|].
  intros Hb Hnul Hlen Hread Hip.
  assert (Z.of_nat (length input) ≤ capacity) as Hle by lia.
  rewrite (cread_padded input (all_bytes_Forall _ Hb) Hle) in Hread.
  injection Hread as Hcode.
  rewrite step_Exit, <- Hcode. split.
  - intros Hload.
    destruct (decide (ip m = Z.of_nat (length input))) as [|Hne]; [done|].
    destruct (lookup_lt_is_Some_2 input (Z.to_nat (ip m))) as [v Hv]; [lia|].
    pose proof (load_padded_input _ _ _ Hv) as Hv'.
    rewrite Z2Nat.id in Hv' by lia.
    rewrite Hload in Hv'. injection Hv' as <-.
    by destruct (nul_free_lookup _ _ _ Hnul Hv).
  - intros ->. by apply load_padded_end.
Qed.

Lemma stops_at_NUL_witness :
  (step (Machine (padded (bytes_of "+-")) 2 zeroed 0 [] []) = Exit <->
   load (padded (bytes_of "+-")) 2 = Some NUL) /\
  (step (Machine (padded (bytes_of "+-")) 2 zeroed 0 [] []) = Exit <->
   2 = Z.of_nat (length (bytes_of "+-"))).
Proof.
  destruct (stops_at_NUL (Machine (padded (bytes_of "+-")) 2 zeroed 0 [] [])
              (bytes_of "+-")) as [H1 H2].
  split; [exact H1|]. apply H2.
  - vm_compute; reflexivity.
  - vm_compute; reflexivity.
  - vm_compute; reflexivity.
  - by_vm.
  - vm_compute. split; discriminate.
Defined.

(** ** Bytes that are not instructions *)

(** C9, as stated, fails for the byte NUL: it is none of the eight
    instructions and the loader keeps it, but the loop stops at it instead
    of stepping over it; on the input '+', NUL, '+' the second '+' is never
    executed. *)
Lemma NUL_is_not_skipped :
  is_instruction NUL = false /\
  cread [PLUS; NUL; PLUS] = Some (padded [PLUS; NUL; PLUS]) /\
  after (steps 1 (boot (padded [PLUS; NUL; PLUS]) []))
    (fun m => load (code m) (ip m) = Some NUL /\ step m = Exit /\
              next_ip (step m) ≠ Some (ip m + 1)) /\
  returns (main [PLUS; NUL; PLUS] 3)
    (fun m => ip m = 1 /\ load (data m) 0 = Some 1).
Proof.
  split; [reflexivity|]. split; [by_vm|]. split.
  - apply (after_impl _ (fun m => load (code m) (ip m) = Some NUL /\ step m = Exit)).
    + intros m [H ->]. done.
    + vm_compute. done.
  - vm_compute. done.
Qed.

(** C9, amended. The loader keeps every byte of its input as it is, the
    eight instructions or not; a turn of the loop at a byte that is none of
    the eight instructions and not NUL only moves [ip] on by 1, leaving
    tape, [dp] and both streams as they are; at a NUL byte the loop ends. *)
Theorem other_bytes_are_skipped (input : list Z) (m : machine) (c : Z) :
  all_bytes input = true ->
  Z.of_nat (length input) ≤ capacity ->
  (exists program, cread input = Some program /\
     forall (k : nat) b, input !! k = Some b -> load program (Z.of_nat k) = Some b) /\
  (load (code m) (ip m) = Some c -> is_instruction c = false -> c ≠ NUL ->
     step m = Next (set_ip m (ip m + 1))) /\
  (load (code m) (ip m) = Some NUL -> step m = Exit).
Proof.
  intros Hb Hlen. split; [|split].
  - exists (padded input). split.
    + apply cread_padded; [by apply all_bytes_Forall|done].
    + intros k b. apply load_padded_input.
  - intros Hc Hi Hnz. rewrite (step_dispatch m c Hc Hnz). by apply dispatch_other.
  - apply step_Exit.
Qed.

Lemma other_bytes_are_skipped_witness :
  (exists program, cread (bytes_of "a+b") = Some program /\
     forall (k : nat) b, bytes_of "a+b" !! k = Some b ->
                         load program (Z.of_nat k) = Some b) /\
  step (boot (padded (bytes_of "a+b")) []) =
    Next (set_ip (boot (padded (bytes_of "a+b")) []) (0 + 1)).
Proof.
  destruct (other_bytes_are_skipped (bytes_of "a+b")
              (boot (padded (bytes_of "a+b")) []) (chr "a")) as (H1 & H2 & _).
  - vm_compute; reflexivity.
  - vm_compute; discriminate.
  - split; [exact H1|]. apply H2.
    + vm_compute; reflexivity.
    + vm_compute; reflexivity.
    + vm_compute; discriminate.
Defined.

(** ** The data pointer *)

Lemma dp_step m m' c :
  load (code m) (ip m) = Some c -> c ≠ LT -> c ≠ GT ->
  step m = Next m' -> dp m' = dp m.
Proof.
  intros Hc HLT HGT. unfold step. rewrite Hc.
  destruct (c =? NUL); [done|]. unfold dispatch.
  rewrite (proj2 (Z.eqb_neq c GT)), (proj2 (Z.eqb_neq c LT)) by done.
  repeat match goal with
         | |- context [if ?b then _ else _] => destruct b
         | |- context [match ?o with Some _ => _ | None => _ end] => destruct o
         | |- context [let (_, _) := ?p in _] => destruct p
         end; intros [= <-]; done.
Qed.

(** C1, as stated, fails: the program "<" moves [dp] from offset 0 to
    offset -1 in its first turn, the loop goes on to the next byte, and
    [main] returns normally with [dp] outside the tape. Likewise a '>' met
    with [dp] at the last cell moves it to offset 30000 and the loop goes
    on. *)
Lemma dp_leaves_the_tape :
  after (step (boot (padded (bytes_of "<")) []))
    (fun m => dp m = -1 /\ ¬ (0 ≤ dp m < capacity) /\ ip m = 1) /\
  returns (main (bytes_of "<") 2)
    (fun m => dp m = -1 /\ ¬ (0 ≤ dp m < capacity) /\ ip m = 1) /\
  after (step (Machine (padded (bytes_of ">")) 0 zeroed (capacity - 1) [] []))
    (fun m => dp m = capacity /\ ¬ (0 ≤ dp m < capacity) /\ ip m = 1).
Proof.
  split; [|split].
  - apply (after_impl _ (fun m => dp m = -1 /\ ip m = 1)).
    + intros m [-> ->]. repeat split; lia.
    + vm_compute. done.
  - apply (returns_impl _ (fun m => dp m = -1 /\ ip m = 1)).
    + intros m [-> ->]. repeat split; lia.
    + vm_compute. done.
  - apply (after_impl _ (fun m => dp m = 30000 /\ ip m = 1)).
    + intros m [-> ->]. unfold capacity. repeat split; lia.
    + vm_compute. done.
Qed.

(** C1, amended. The loop does not check [dp]: a '<' always moves it down
    by one and a '>' always moves it up by one, each continuing at
    [ip + 1], and no other turn changes it; so [dp] stays within
    [0, capacity) over every turn other than a '<' at offset 0 and a '>'
    at offset [capacity - 1]. *)
Theorem dp_is_not_checked (m : machine) (c : Z) :
  load (code m) (ip m) = Some c -> c ≠ NUL ->
  (c = LT -> step m = Next (set_ip (set_dp m (dp m - 1)) (ip m + 1))) /\
  (c = GT -> step m = Next (set_ip (set_dp m (dp m + 1)) (ip m + 1))) /\
  (c ≠ LT -> c ≠ GT -> forall m', step m = Next m' -> dp m' = dp m) /\
  (0 ≤ dp m < capacity ->
   ¬ (c = LT /\ dp m = 0) -> ¬ (c = GT /\ dp m = capacity - 1) ->
   forall m', step m = Next m' -> 0 ≤ dp m' < capacity).
Proof.
  intros Hc Hnz.
  assert (c = LT -> step m = Next (set_ip (set_dp m (dp m - 1)) (ip m + 1))) as HLT.
  { intros ->. by rewrite (step_dispatch m LT Hc Hnz). }
  assert (c = GT -> step m = Next (set_ip (set_dp m (dp m + 1)) (ip m + 1))) as HGT.
  { intros ->. by rewrite (step_dispatch m GT Hc Hnz). }
  split; [done|]. split; [done|]. split.
  - intros NL NG m' Hs. by eapply dp_step.
  - intros Hdp NL0 NG0 m' Hs.
    destruct (decide (c = LT)) as [E|NL].
    { rewrite (HLT E) in Hs. injection Hs as <-. simpl. lia. }
    destruct (decide (c = GT)) as [E|NG].
    { rewrite (HGT E) in Hs. injection Hs as <-. simpl. lia. }
    by rewrite (dp_step m m' c).
Qed.

Lemma dp_is_not_checked_witness :
  step (boot (padded (bytes_of "<")) []) =
    Next (set_ip (set_dp (boot (padded (bytes_of "<")) []) (0 - 1)) (0 + 1)) /\
  (forall m', step (boot (padded (bytes_of ">")) []) = Next m' ->
              0 ≤ dp m' < capacity).
Proof.
  split.
  - destruct (dp_is_not_checked (boot (padded (bytes_of "<")) []) LT) as (H & _).
    + vm_compute; reflexivity.
    + discriminate.
    + by apply H.
  - destruct (dp_is_not_checked (boot (padded (bytes_of ">")) []) GT) as (_ & _ & _ & H).
    + vm_compute; reflexivity.
    + discriminate.
    + apply H.
      * vm_compute. split; [discriminate|reflexivity].
      * intros [E _]. discriminate E.
      * intros [_ E]. discriminate E.
Defined.

(** ** The loader *)

(** C2, as stated, fails: [cread] loads the unbalanced inputs "]" and "+["
    like any other and the loop runs on them; [main] returns normally. The
    input "[" is loaded too, and the loop enters [flookup], which walks off
    the end of the array. *)
Lemma unbalanced_programs_run :
  (balanced (bytes_of "]") = false /\
   cread (bytes_of "]") = Some (padded (bytes_of "]")) /\
   returns (main (bytes_of "]") 2) (fun m => ip m = 1)) /\
  (balanced (bytes_of "+[") = false /\
   cread (bytes_of "+[") = Some (padded (bytes_of "+[")) /\
   returns (main (bytes_of "+[") 3) (fun m => ip m = 2 /\ load (data m) 0 = Some 1)) /\
  (balanced (bytes_of "[") = false /\
   cread (bytes_of "[") = Some (padded (bytes_of "[")) /\
   main (bytes_of "[") 1 = Crashed).
Proof.
  split; [|split]; (split; [vm_compute; reflexivity|split; [by_vm|]]).
  - vm_compute. done.
  - vm_compute. done.
  - vm_compute. done.
Qed.

(** C2, amended. The loader does not look at brackets: every input of at
    most 30000 bytes, balanced or not, is copied as it is into the zeroed
    array, and the loop is entered on it. *)
Theorem loader_does_not_validate (input : list Z) (fuel : nat) :
  all_bytes input = true ->
  Z.of_nat (length input) ≤ capacity ->
  cread input = Some (padded input) /\
  main input fuel = run fuel (boot (padded input) []).
Proof.
  intros Hb Hlen.
  assert (cread input = Some (padded input)) as Hread
    by (apply cread_padded; [by apply all_bytes_Forall|done]).
  split; [done|]. unfold main. by rewrite Hread.
Qed.

Lemma loader_does_not_validate_witness :
  cread (bytes_of "][") = Some (padded (bytes_of "][")) /\
  main (bytes_of "][") 5 = run 5 (boot (padded (bytes_of "][")) []).
Proof.
  apply (loader_does_not_validate (bytes_of "][") 5).
  - vm_compute; reflexivity.
  - vm_compute; discriminate.
Defined.

(** * Further properties of bf.c *)

(** ** What the lookups return, exactly *)

(** A stretch whose nesting comes down from [count] to 0 without going
    below is passed over by the scan, which stops on the [down] after it. *)
Lemma scan_through up down l rest : forall count,
  up ≠ down -> 0 ≤ count -> count + Z.of_nat (length l) < 2 ^ 32 ->
  nesting up down l count = Some 0 ->
  scan up down (l ++ down :: rest) count = Some (length l).
Proof.
  induction l as [|c l IH]; intros count Hne Hc Hlen Hn.
  - injection Hn as ->. simpl. by rewrite Z.eqb_refl.
  - cbn [nesting] in Hn. cbn [length] in Hlen.
    cbn [app scan length].
    destruct (Z.eqb_spec c up) as [->|Hup].
    + rewrite (proj2 (Z.eqb_neq up down)) by done. simpl.
      destruct (_ <? 0) in Hn; [done|].
      rewrite to_unsigned_small by lia.
      by rewrite (IH (count + 1)) by (done || lia).
    + destruct (Z.eqb_spec c down) as [->|Hdown].
      * destruct (Z.ltb_spec (count - 1) 0) in Hn; [done|].
        rewrite (proj2 (Z.eqb_neq count 0)) by lia. simpl.
        rewrite to_unsigned_small by lia.
        by rewrite (IH (count - 1)) by (done || lia).
      * simpl. destruct (_ <? 0) in Hn; [done|].
        by rewrite (IH count) by (done || lia).
Qed.

Lemma balanced_nesting l :
  balanced l = true -> nesting LBRACKET RBRACKET l 0 = Some 0.
Proof.
  unfold balanced. destruct (nesting _ _ l 0) as [d|]; [|done].
  intros Hd. apply Z.eqb_eq in Hd. by subst.
Qed.

Lemma flookup_iff code i j :
  Z.of_nat (length code) < 2 ^ 32 -> 0 ≤ i ->
  flookup code i = Some j <->
  i < j /\ load code j = Some RBRACKET /\ balanced (segment code (i + 1) j) = true.
Proof.
  intros Hlen Hi. split.
  - intros Hf. pose proof (flookup_segment _ _ _ Hlen Hf).
    apply flookup_Some in Hf as [[? ?] ?]. done.
  - intros (Hij & Hj & Hseg). apply load_Some in Hj as [Hr Hj].
    apply balanced_nesting in Hseg. unfold segment in Hseg.
    unfold flookup. rewrite decide_True by lia. rewrite flookup_loop_scan.
    set (k := Z.to_nat (j - (i + 1))) in *.
    rewrite <- (take_drop_middle (drop (Z.to_nat (i + 1)) code) k RBRACKET).
    2:{ rewrite lookup_drop.
        by replace (Z.to_nat (i + 1) + k)%nat with (Z.to_nat j) by lia. }
    rewrite scan_through; [|done|done| |done].
    + rewrite length_take, length_drop. simpl. f_equal. lia.
    + rewrite length_take, length_drop. lia.
Qed.

Lemma blookup_iff code i j :
  Z.of_nat (length code) < 2 ^ 32 ->
  blookup code i = Some j <->
  0 ≤ j < i /\ i ≤ Z.of_nat (length code) /\
  load code j = Some LBRACKET /\ balanced (segment code (j + 1) i) = true.
Proof.
  intros Hlen. split.
  - intros Hb. pose proof (blookup_segment _ _ _ Hlen Hb).
    assert (i ≤ Z.of_nat (length code)).
    { unfold blookup in Hb. case_decide; [lia|done]. }
    apply blookup_Some in Hb as [[? ?] ?]. done.
  - intros (Hji & Hi & Hj & Hseg). apply load_Some in Hj as [Hr Hj].
    apply balanced_nesting in Hseg. unfold segment in Hseg.
    apply nesting_reverse in Hseg; [|done|done].
    unfold blookup. rewrite decide_True by lia. rewrite blookup_loop_scan.
    set (k := Z.to_nat (i - (j + 1))) in *.
    replace (Z.to_nat i) with (S (Z.to_nat j) + k)%nat by lia.
    rewrite <- take_take_drop, (take_S_r _ _ _ Hj).
    replace (Z.to_nat (j + 1)) with (S (Z.to_nat j)) in Hseg by lia.
    rewrite reverse_app, reverse_snoc.
    rewrite scan_through; [|done|done| |done].
    + rewrite length_reverse, length_take, length_drop. simpl. f_equal. lia.
    + rewrite length_reverse, length_take, length_drop. lia.
Qed.

(** X1. [flookup] called at offset [i] returns [j] exactly when [j] is the
    offset of a ']' after [i] with a balanced stretch of program between
    [i] and [j]: it returns the matching bracket and nothing else. *)
Theorem flookup_returns_the_match (program : list Z) (i j : Z) :
  Z.of_nat (length program) ≤ capacity -> 0 ≤ i ->
  flookup program i = Some j <->
  i < j /\ load program j = Some RBRACKET /\
  balanced (segment program (i + 1) j) = true.
Proof.
  intros Hlen Hi. apply flookup_iff; [|done]. unfold capacity in Hlen. lia.
Qed.

Lemma flookup_returns_the_match_witness :
  flookup (padded (bytes_of "+[>[-]<-]")) 1 = Some 8 <->
  1 < 8 /\ load (padded (bytes_of "+[>[-]<-]")) 8 = Some RBRACKET /\
  balanced (segment (padded (bytes_of "+[>[-]<-]")) (1 + 1) 8) = true.
Proof.
  apply (flookup_returns_the_match (padded (bytes_of "+[>[-]<-]")) 1 8);
    vm_compute; discriminate.
Defined.

(** X2. [blookup] called at offset [i] returns [j] exactly when [i] is
    within the array (or one past it) and [j] is the offset of a '[' before
    [i] with a balanced stretch of program between [j] and [i]. *)
Theorem blookup_returns_the_match (program : list Z) (i j : Z) :
  Z.of_nat (length program) ≤ capacity ->
  blookup program i = Some j <->
  0 ≤ j < i /\ i ≤ Z.of_nat (length program) /\
  load program j = Some LBRACKET /\
  balanced (segment program (j + 1) i) = true.
Proof.
  intros Hlen. apply blookup_iff. unfold capacity in Hlen. lia.
Qed.

Lemma blookup_returns_the_match_witness :
  blookup (padded (bytes_of "+[>[-]<-]")) 8 = Some 1 <->
  0 ≤ 1 < 8 /\ 8 ≤ Z.of_nat (length (padded (bytes_of "+[>[-]<-]"))) /\
  load (padded (bytes_of "+[>[-]<-]")) 1 = Some LBRACKET /\
  balanced (segment (padded (bytes_of "+[>[-]<-]")) (1 + 1) 8) = true.
Proof.
  apply (blookup_returns_the_match (padded (bytes_of "+[>[-]<-]")) 8 1);
    vm_compute; discriminate.
Defined.

(** X3. The two lookups undo each other: from a '[' at [i], if [flookup]
    returns [j] then [blookup] at [j] returns [i]; from a ']' at [j], if
    [blookup] returns [i] then [flookup] at [i] returns [j]. *)
Theorem lookups_are_inverse (program : list Z) (i j : Z) :
  Z.of_nat (length program) ≤ capacity ->
  (load program i = Some LBRACKET -> flookup program i = Some j ->
     blookup program j = Some i) /\
  (load program j = Some RBRACKET -> blookup program j = Some i ->
     flookup program i = Some j).
Proof.
  intros Hlen.
  assert (Z.of_nat (length program) < 2 ^ 32) as Hsmall
    by (unfold capacity in Hlen; lia).
  split.
  - intros Hi Hf. pose proof (flookup_segment _ _ _ Hsmall Hf) as Hseg.
    apply flookup_Some in Hf as [[? ?] _].
    apply load_Some in Hi as Hi'. destruct Hi' as [[? ?] _].
    apply blookup_iff; [done|]. repeat split; (done || lia).
  - intros Hj Hb. pose proof (blookup_segment _ _ _ Hsmall Hb) as Hseg.
    apply blookup_Some in Hb as [[? ?] _].
    apply flookup_iff; [done|done|]. repeat split; (done || lia).
Qed.

Lemma lookups_are_inverse_witness :
  blookup (padded (bytes_of "+[>[-]<-]")) 8 = Some 1 /\
  flookup (padded (bytes_of "+[>[-]<-]")) 3 = Some 5.
Proof.
  split.
  - apply (lookups_are_inverse (padded (bytes_of "+[>[-]<-]")) 1 8);
      vm_compute; (reflexivity || discriminate).
  - apply (lookups_are_inverse (padded (bytes_of "+[>[-]<-]")) 3 5);
      vm_compute; (reflexivity || discriminate).
Defined.

(** ** Unmatched brackets *)

Lemma none_of_lookup c l (k : nat) : none_of c l = true -> l !! k ≠ Some c.
Proof.
  unfold none_of. rewrite forallb_forall. intros H Hk.
  apply list_elem_of_lookup_2, list_elem_of_In, H, negb_true_iff in Hk.
  by rewrite Z.eqb_refl in Hk.
Qed.

(** X4. A '[' met on a zero cell with no ']' anywhere after it, and a ']'
    met on a non-zero cell with no '[' anywhere before it, make the lookup
    walk off the array: the turn is undefined behaviour. *)
Theorem unmatched_bracket_runs_off (m : machine) (v : Z) :
  0 ≤ ip m ->
  load (data m) (dp m) = Some v ->
  (load (code m) (ip m) = Some LBRACKET -> v = 0 ->
   none_of RBRACKET (drop (Z.to_nat (ip m + 1)) (code m)) = true ->
   step m = Undefined) /\
  (load (code m) (ip m) = Some RBRACKET -> v ≠ 0 ->
   none_of LBRACKET (take (Z.to_nat (ip m)) (code m)) = true ->
   step m = Undefined).
Proof.
  intros Hip Hv. split.
  - intros Hc -> Hnone.
    rewrite (step_dispatch m LBRACKET Hc) by done.
    rewrite (dispatch_lbracket m 0 Hv). simpl.
    destruct (flookup (code m) (ip m)) as [j|] eqn:Hj; [|done].
    apply flookup_Some in Hj as [[? ?] Hj]. apply load_Some in Hj as [_ Hj].
    destruct (none_of_lookup _ _ (Z.to_nat j - Z.to_nat (ip m + 1)) Hnone).
    rewrite lookup_drop. by replace (_ + _)%nat with (Z.to_nat j) by lia.
  - intros Hc Hnz Hnone.
    rewrite (step_dispatch m RBRACKET Hc) by done.
    rewrite (dispatch_rbracket m v Hv), (proj2 (Z.eqb_neq v 0)) by done.
    destruct (blookup (code m) (ip m)) as [j|] eqn:Hj; [|done].
    apply blookup_Some in Hj as [[? ?] Hj]. apply load_Some in Hj as [_ Hj].
    destruct (none_of_lookup _ _ (Z.to_nat j) Hnone).
    by rewrite lookup_take_lt by lia.
Qed.

Lemma unmatched_bracket_runs_off_witness :
  step (boot (padded (bytes_of "[+")) []) = Undefined /\
  step (Machine (padded (bytes_of "+]")) 1 (<[0%nat := 1]> zeroed) 0 [] []) = Undefined.
Proof.
  split.
  - destruct (unmatched_bracket_runs_off (boot (padded (bytes_of "[+")) []) 0)
      as [H _]; [vm_compute; discriminate|vm_compute; reflexivity|].
    apply H; vm_compute; reflexivity.
  - destruct (unmatched_bracket_runs_off
                (Machine (padded (bytes_of "+]")) 1 (<[0%nat := 1]> zeroed) 0 [] []) 1)
      as [_ H]; [vm_compute; discriminate|vm_compute; reflexivity|].
    apply H; vm_compute; (reflexivity || discriminate).
Defined.

(** ** The loader and an input that does not fit *)

Lemma cread_loop_overflow input : forall done rest,
  (length rest < length input)%nat ->
  cread_loop input (done ++ rest) (Z.of_nat (length done)) = None.
Proof.
  induction input as [|b input IH]; intros done rest Hlen; [simpl in Hlen; lia|].
  cbn [cread_loop]. destruct rest as [|r rest].
  - unfold store. rewrite decide_False; [done|].
    rewrite length_app. simpl. lia.
  - rewrite store_in_range by (rewrite length_app; simpl; lia).
    rewrite Nat2Z.id, insert_app_r_alt, Nat.sub_diag by lia. simpl.
    replace (done ++ to_char b :: rest) with ((done ++ [to_char b]) ++ rest)
      by (by rewrite <- app_assoc).
    replace (Z.of_nat (length done) + 1)
      with (Z.of_nat (length (done ++ [to_char b])))
      by (rewrite length_app; simpl; lia).
    apply IH. simpl in Hlen. lia.
Qed.

Lemma cread_loop_fits input : forall done rest,
  (length input ≤ length rest)%nat ->
  is_Some (cread_loop input (done ++ rest) (Z.of_nat (length done))).
Proof.
  induction input as [|b input IH]; intros done rest Hlen; [by eexists|].
  destruct rest as [|r rest]; [simpl in Hlen; lia|].
  cbn [cread_loop].
  rewrite store_in_range by (rewrite length_app; simpl; lia).
  rewrite Nat2Z.id, insert_app_r_alt, Nat.sub_diag by lia. simpl.
  replace (done ++ to_char b :: rest) with ((done ++ [to_char b]) ++ rest)
    by (by rewrite <- app_assoc).
  replace (Z.of_nat (length done) + 1)
    with (Z.of_nat (length (done ++ [to_char b])))
    by (rewrite length_app; simpl; lia).
  apply IH. simpl in Hlen. lia.
Qed.

(** X5. [cread] does not bound its copy: it writes past the end of [code]
    exactly when the input has more than 30000 bytes, and [main] is then
    undefined whatever the program says. *)
Theorem cread_overflows_beyond_capacity (input : list Z) :
  (cread input = None <-> capacity < Z.of_nat (length input)) /\
  (capacity < Z.of_nat (length input) -> forall fuel, main input fuel = Crashed).
Proof.
  assert (capacity < Z.of_nat (length input) -> cread input = None) as Hover.
  { intros Hlen. apply (cread_loop_overflow input [] zeroed).
    pose proof length_zeroed. lia. }
  split; [split; [|done]|].
  - intros Hnone.
    destruct (decide (capacity < Z.of_nat (length input))) as [|Hfit]; [done|].
    destruct (cread_loop_fits input [] zeroed) as [code Hcode].
    { pose proof length_zeroed. lia. }
    change (cread input = Some code) in Hcode. congruence.
  - intros Hlen fuel. unfold main. by rewrite (Hover Hlen).
Qed.

Lemma cread_overflows_beyond_capacity_witness :
  main (replicate (Z.to_nat (capacity + 1)) PLUS) 3 = Crashed.
Proof.
  apply (cread_overflows_beyond_capacity (replicate (Z.to_nat (capacity + 1)) PLUS)).
  vm_compute. reflexivity.
Defined.

(** ** What a turn of the loop can change *)

Lemma store_Some mem i v t :
  store mem i v = Some t ->
  0 ≤ i < Z.of_nat (length mem) /\ t = <[Z.to_nat i := to_char v]> mem.
Proof. unfold store. case_decide; [|done]. by intros [= <-]. Qed.

Lemma getchar_suffix inp cur rest :
  getchar inp = (cur, rest) -> rest `suffix_of` inp.
Proof.
  destruct inp as [|b inp]; intros [= <- <-]; [done|].
  by apply suffix_cons_r.
Qed.

(** The shapes of the machine with which the loop continues: a move of
    [dp]; a write to the current cell, possibly taking a byte of input; a
    byte of output; or a new [ip] alone. *)
Lemma step_Next_inv m m' :
  step m = Next m' ->
  exists c, load (code m) (ip m) = Some c /\ c ≠ NUL /\
  ((exists d, m' = Machine (code m) (ip m + 1) (data m) d (stdin m) (stdout m)) \/
   (exists w rest,
      0 ≤ dp m < Z.of_nat (length (data m)) /\ rest `suffix_of` stdin m /\
      m' = Machine (code m) (ip m + 1)
                   (<[Z.to_nat (dp m) := to_char w]> (data m)) (dp m)
                   rest (stdout m)) \/
   (exists v,
      load (data m) (dp m) = Some v /\
      m' = Machine (code m) (ip m + 1) (data m) (dp m) (stdin m)
                   (stdout m ++ [v])) \/
   (exists j,
      (j = ip m + 1 \/
       c = LBRACKET /\ flookup (code m) (ip m) = Some j \/
       c = RBRACKET /\ blookup (code m) (ip m) = Some j) /\
      m' = Machine (code m) j (data m) (dp m) (stdin m) (stdout m))).
Proof.
  unfold step. destruct (load (code m) (ip m)) as [c|] eqn:Hc; [|done].
  destruct (Z.eqb_spec c NUL) as [|Hnz]; [done|].
  intros Hd. exists c. split; [done|]. split; [done|].
  unfold dispatch in Hd.
  destruct (Z.eqb_spec c GT).
  { injection Hd as <-. left. by eexists. }
  destruct (Z.eqb_spec c LT).
  { injection Hd as <-. left. by eexists. }
  destruct (Z.eqb_spec c PLUS).
  { destruct (load (data m) (dp m)) as [v|]; [|done].
    destruct (store _ _ _) as [t|] eqn:Hs; [|done].
    injection Hd as <-. apply store_Some in Hs as [Hr ->].
    right. left. by exists (v + 1), (stdin m). }
  destruct (Z.eqb_spec c MINUS).
  { destruct (load (data m) (dp m)) as [v|]; [|done].
    destruct (store _ _ _) as [t|] eqn:Hs; [|done].
    injection Hd as <-. apply store_Some in Hs as [Hr ->].
    right. left. by exists (v - 1), (stdin m). }
  destruct (Z.eqb_spec c DOT).
  { destruct (load (data m) (dp m)) as [v|] eqn:Hv; [|done].
    injection Hd as <-. right. right. left. by exists v. }
  destruct (Z.eqb_spec c COMMA).
  { destruct (getchar (stdin m)) as [cur rest] eqn:Hg.
    destruct (store _ _ _) as [t|] eqn:Hs; [|done].
    injection Hd as <-. apply store_Some in Hs as [Hr ->].
    right. left. exists cur, rest.
    split; [done|]. split; [by eapply getchar_suffix|done]. }
  destruct (Z.eqb_spec c LBRACKET).
  { destruct (load (data m) (dp m)) as [v|]; [|done].
    destruct (v =? 0).
    - destruct (flookup _ _) as [j|] eqn:Hj; [|done].
      injection Hd as <-. right. right. right. exists j. split; [|done]. auto.
    - injection Hd as <-. right. right. right. exists (ip m + 1). auto. }
  destruct (Z.eqb_spec c RBRACKET).
  { destruct (load (data m) (dp m)) as [v|]; [|done].
    destruct (negb (v =? 0)).
    - destruct (blookup _ _) as [j|] eqn:Hj; [|done].
      injection Hd as <-. right. right. right. exists j. split; [|done]. auto.
    - injection Hd as <-. right. right. right. exists (ip m + 1). auto. }
  injection Hd as <-. right. right. right. exists (ip m + 1). auto.
Qed.

Lemma load_insert_ne mem (i k : Z) v :
  k ≠ i -> 0 ≤ i -> load (<[Z.to_nat i := v]> mem) k = load mem k.
Proof.
  intros Hne Hi. unfold load. case_decide; [|done].
  apply list_lookup_insert_ne. lia.
Qed.

(** X6. A turn of the loop that continues never changes the program, never
    changes the size of the tape, and leaves every cell other than the
    current one as it was. *)
Theorem step_writes_current_cell_only (m m' : machine) :
  step m = Next m' ->
  code m' = code m /\
  length (data m') = length (data m) /\
  (forall k, k ≠ dp m -> load (data m') k = load (data m) k).
Proof.
  intros Hs.
  destruct (step_Next_inv _ _ Hs)
    as (c & _ & _ & [[d ->]|[(w & rest & Hr & _ & ->)|[(v & _ & ->)|(j & _ & ->)]]]);
    cbn [code data]; try done.
  split; [done|]. split; [by rewrite length_insert|].
  intros k Hk. apply load_insert_ne; [done|lia].
Qed.

Lemma step_writes_current_cell_only_witness :
  load (<[0%nat := 1]> zeroed) 7 = load (data (boot (padded (bytes_of "+")) [])) 7.
Proof.
  destruct (step_writes_current_cell_only
              (boot (padded (bytes_of "+")) [])
              (Machine (padded (bytes_of "+")) 1 (<[0%nat := 1]> zeroed) 0 [] []))
    as (_ & _ & H); [by_vm|].
  apply (H 7). discriminate.
Defined.

(** ** What holds all along a run *)

Lemma steps_invariant (P : machine -> Prop) :
  (forall m m', P m -> step m = Next m' -> P m') ->
  forall n m m', P m -> steps n m = Next m' -> P m'.
Proof.
  intros Hstep. induction n as [|n IH]; intros m m' HP; simpl.
  - by intros [= <-].
  - destruct (step m) as [m1| |] eqn:Hs; [|done|done].
    apply IH. by eapply Hstep.
Qed.

Lemma run_invariant (P : machine -> Prop) :
  (forall m m', P m -> step m = Next m' -> P m') ->
  forall n m f, P m -> run n m = Finished f -> P f.
Proof.
  intros Hstep. induction n as [|n IH]; intros m f HP; simpl; [done|].
  destruct (step m) as [m1| |] eqn:Hs; [|by intros [= <-]|done].
  apply IH. by eapply Hstep.
Qed.

Lemma Forall_is_byte_zeroed : Forall is_byte zeroed.
Proof. apply Forall_replicate. unfold is_byte. lia. Qed.

(** X7. Whatever the program and whatever is pending on the input, a run
    from a fresh machine that returns leaves the program as loaded and a
    tape of 30000 cells, each holding a value from 0 to 255. *)
Theorem run_keeps_program_and_tape_shape
    (program input : list Z) (n : nat) (f : machine) :
  run n (boot program input) = Finished f ->
  code f = program /\
  Z.of_nat (length (data f)) = capacity /\
  Forall is_byte (data f).
Proof.
  apply (run_invariant
           (fun m => code m = program /\
                     Z.of_nat (length (data m)) = capacity /\
                     Forall is_byte (data m))).
  - intros m m' (Hc & Hl & Hb) Hs.
    destruct (step_Next_inv _ _ Hs)
      as (c & _ & _ & [[d ->]|[(w & rest & Hr & _ & ->)|[(v & _ & ->)|(j & _ & ->)]]]);
      cbn [code data]; try done.
    split; [done|]. split; [by rewrite length_insert|].
    apply Forall_insert; [done|apply to_char_is_byte].
  - split; [done|]. split; [apply length_zeroed|apply Forall_is_byte_zeroed].
Qed.

Lemma run_keeps_program_and_tape_shape_witness :
  code (Machine (padded (bytes_of "-,")) 2 (<[0%nat := 65]> zeroed) 0 [66] []) =
    padded (bytes_of "-,") /\
  Z.of_nat (length (data (Machine (padded (bytes_of "-,")) 2
                                  (<[0%nat := 65]> zeroed) 0 [66] []))) = capacity /\
  Forall is_byte (data (Machine (padded (bytes_of "-,")) 2
                                (<[0%nat := 65]> zeroed) 0 [66] [])).
Proof.
  apply (run_keeps_program_and_tape_shape (padded (bytes_of "-,")) [65; 66] 5).
  by_vm.
Defined.

(** X8. Along a run the output only grows and the input only shrinks: what
    has been written stays written, in order, and what is left to read is
    an end piece of what was there. In particular a run started at end of
    input, as [main] starts it, stays at end of input. *)
Theorem streams_are_monotone (n : nat) (m m' : machine) :
  steps n m = Next m' \/ run n m = Finished m' ->
  stdout m `prefix_of` stdout m' /\
  stdin m' `suffix_of` stdin m /\
  (stdin m = [] -> stdin m' = []).
Proof.
  intros Hrun.
  assert (stdout m `prefix_of` stdout m' /\ stdin m' `suffix_of` stdin m) as [Ho Hi].
  { revert Hrun.
    assert (forall a b, (stdout m `prefix_of` stdout a /\ stdin a `suffix_of` stdin m) ->
                        step a = Next b ->
                        stdout m `prefix_of` stdout b /\ stdin b `suffix_of` stdin m)
      as Hstep.
    { intros a b [Ho Hi] Hs.
      destruct (step_Next_inv _ _ Hs)
        as (c & _ & _ & [[d ->]|[(w & rest & _ & Hr & ->)|[(v & _ & ->)|(j & _ & ->)]]]);
        cbn [stdin stdout]; try done.
      - split; [done|]. by etrans.
      - split; [|done]. by apply prefix_app_r. }
    intros [Hsteps|Hrun].
    - by apply (steps_invariant _ Hstep n m m').
    - by apply (run_invariant _ Hstep n m m'). }
  split; [done|]. split; [done|].
  intros Hnil. rewrite Hnil in Hi. by apply suffix_nil_inv in Hi.
Qed.

Lemma streams_are_monotone_witness :
  stdout (boot (padded (bytes_of ",.,.")) [65]) `prefix_of` [65; 255] /\
  [] `suffix_of` stdin (boot (padded (bytes_of ",.,.")) [65]) /\
  (stdin (boot (padded (bytes_of ",.,.")) [65]) = [] -> @nil Z = []).
Proof.
  apply (streams_are_monotone 5 (boot (padded (bytes_of ",.,.")) [65])
           (Machine (padded (bytes_of ",.,.")) 4 (<[0%nat := 255]> zeroed) 0 []
                    [65; 255])).
  right. by_vm.
Defined.

(** ** Where undefined behaviour can come from *)

Lemma load_None mem i : load mem i = None -> ¬ (0 ≤ i < Z.of_nat (length mem)).
Proof.
  unfold load. case_decide as Hi; [|lia].
  intros Hge%lookup_ge_None. lia.
Qed.

Lemma store_None mem i v : store mem i v = None -> ¬ (0 ≤ i < Z.of_nat (length mem)).
Proof. unfold store. by case_decide. Qed.

Lemma step_Undefined_inv m :
  step m = Undefined ->
  load (code m) (ip m) = None \/
  ¬ (0 ≤ dp m < Z.of_nat (length (data m))) \/
  (load (code m) (ip m) = Some LBRACKET /\ flookup (code m) (ip m) = None) \/
  (load (code m) (ip m) = Some RBRACKET /\ blookup (code m) (ip m) = None).
Proof.
  unfold step. destruct (load (code m) (ip m)) as [c|] eqn:Hc; [|by left].
  destruct (c =? NUL); [done|]. unfold dispatch.
  destruct (c =? GT); [done|]. destruct (c =? LT); [done|].
  destruct (c =? PLUS).
  { destruct (load (data m) (dp m)) as [v|] eqn:Hv.
    - destruct (store _ _ _) eqn:Hs; [done|]. right. left. by eapply store_None.
    - right. left. by apply load_None. }
  destruct (c =? MINUS).
  { destruct (load (data m) (dp m)) as [v|] eqn:Hv.
    - destruct (store _ _ _) eqn:Hs; [done|]. right. left. by eapply store_None.
    - right. left. by apply load_None. }
  destruct (c =? DOT).
  { destruct (load (data m) (dp m)) as [v|] eqn:Hv; [done|].
    right. left. by apply load_None. }
  destruct (c =? COMMA).
  { destruct (getchar (stdin m)) as [cur rest].
    destruct (store _ _ _) eqn:Hs; [done|]. right. left. by eapply store_None. }
  destruct (Z.eqb_spec c LBRACKET) as [->|_].
  { destruct (load (data m) (dp m)) as [v|] eqn:Hv.
    - destruct (v =? 0); [|done].
      destruct (flookup _ _) eqn:Hj; [done|]. right. right. by left.
    - right. left. by apply load_None. }
  destruct (Z.eqb_spec c RBRACKET) as [->|_]; [|done].
  destruct (load (data m) (dp m)) as [v|] eqn:Hv.
  - destruct (negb (v =? 0)); [|done].
    destruct (blookup _ _) eqn:Hj; [done|]. right. right. by right.
  - right. left. by apply load_None.
Qed.

Lemma nesting_zeros n d :
  0 ≤ d -> nesting LBRACKET RBRACKET (replicate n 0) d = Some d.
Proof.
  intros Hd. induction n as [|n IH]; [done|]. simpl.
  by rewrite (proj2 (Z.ltb_ge d 0)).
Qed.

Lemma balanced_padded input : balanced input = true -> balanced (padded input) = true.
Proof.
  intros Hb%balanced_nesting. unfold balanced, padded.
  rewrite nesting_app, Hb. simpl. by rewrite nesting_zeros.
Qed.

Lemma load_padded_nonzero input i c :
  load (padded input) i = Some c -> c ≠ 0 ->
  0 ≤ i < Z.of_nat (length input) /\ input !! Z.to_nat i = Some c.
Proof.
  intros Hl Hc. apply load_Some in Hl as [[Hi _] Hl]. unfold padded in Hl.
  apply lookup_app_Some in Hl as [Hl|[_ Hl]].
  - split; [|done]. apply lookup_lt_Some in Hl. lia.
  - apply lookup_replicate in Hl as [-> _]. done.
Qed.

Lemma inside_step input m m' :
  Z.of_nat (length input) < capacity ->
  inside input m -> step m = Next m' -> inside input m'.
Proof.
  intros Hlen (Hcode & Hip & Hdata) Hs.
  destruct (step_Next_inv _ _ Hs) as (c & Hc & Hnz & Hshape).
  assert (ip m < Z.of_nat (length input)) as Hlt.
  { destruct (decide (ip m = Z.of_nat (length input))) as [E|]; [|lia].
    rewrite Hcode, E, load_padded_end in Hc by done. by injection Hc as <-. }
  destruct Hshape
    as [[d ->]|[(w & rest & Hr & _ & ->)|[(v & _ & ->)|(j & Hj & ->)]]];
    unfold inside; cbn [code ip data]; rewrite ?length_insert;
    try (split; [done|split; [lia|done]]).
  split; [done|]. split; [|done].
  destruct Hj as [->|[[-> Hj]|[-> Hj]]]; [lia| |].
  - apply flookup_Some in Hj as [[? _] Hj]. rewrite Hcode in Hj.
    apply load_padded_nonzero in Hj as [? _]; [lia|done].
  - apply blookup_Some in Hj as [[? ?] _]. lia.
Qed.

Lemma crash_through_dp input n : forall m,
  Z.of_nat (length input) < capacity -> balanced input = true ->
  inside input m -> run n m = Crashed ->
  exists k m', steps k m = Next m' /\ ¬ (0 ≤ dp m' < capacity).
Proof.
  induction n as [|n IH]; intros m Hlen Hb Hin; simpl; [done|].
  destruct (step m) as [m1| |] eqn:Hs; [|done|].
  - intros Hrun.
    destruct (IH m1 Hlen Hb (inside_step _ _ _ Hlen Hin Hs) Hrun) as (k & m' & Hk & Hdp).
    exists (S k), m'. simpl. by rewrite Hs.
  - intros _. destruct Hin as (Hcode & Hip & Hdata).
    assert (Z.of_nat (length (code m)) = capacity) as Hsize.
    { rewrite Hcode. unfold padded. rewrite length_app, length_replicate.
      unfold capacity in *. lia. }
    assert (Z.of_nat (length (code m)) < 2 ^ 32) as Hsmall
      by (rewrite Hsize; unfold capacity; lia).
    assert (balanced (code m) = true) as Hbal
      by (rewrite Hcode; by apply balanced_padded).
    destruct (step_Undefined_inv _ Hs) as [Hc|[Hdp|[[Hc Hj]|[Hc Hj]]]].
    + apply load_None in Hc. lia.
    + exists 0%nat, m. split; [done|]. by rewrite <- Hdata.
    + destruct (flookup_balanced _ _ Hbal Hsmall Hc) as [j Hj']. congruence.
    + destruct (blookup_balanced _ _ Hbal Hsmall Hc) as [j Hj']. congruence.
Qed.

Lemma inside_boot input inp :
  inside input (boot (padded input) inp).
Proof.
  unfold inside. cbn [boot code ip data].
  split; [done|]. split; [lia|apply length_zeroed].
Qed.

Lemma inside_load input m :
  Z.of_nat (length input) < capacity -> inside input m ->
  is_Some (load (code m) (ip m)).
Proof.
  intros Hlen (Hcode & Hip & _). unfold load. rewrite decide_True by lia.
  apply lookup_lt_is_Some_2. rewrite Hcode. unfold padded.
  rewrite length_app, length_replicate. unfold capacity in *. lia.
Qed.

(** X9. On an input of fewer than 30000 bytes, balanced or not, [ip] never
    leaves the loaded bytes and the NUL that ends them: every machine the
    loop reaches fetches its instruction inside [code]. *)
Theorem ip_stays_in_program (input inp : list Z) (k : nat) (m : machine) :
  Z.of_nat (length input) < capacity ->
  steps k (boot (padded input) inp) = Next m ->
  0 ≤ ip m ≤ Z.of_nat (length input) /\ is_Some (load (code m) (ip m)).
Proof.
  intros Hlen Hk.
  assert (inside input m) as Hin.
  { apply (steps_invariant (inside input)
             (fun a b => inside_step input a b Hlen) k _ _ (inside_boot input inp) Hk). }
  split; [apply Hin|by apply (inside_load input)].
Qed.

Lemma ip_stays_in_program_witness :
  0 ≤ ip (Machine (padded (bytes_of "+]+")) 1 (<[0%nat := 1]> zeroed) 0 [] [])
    ≤ Z.of_nat (length (bytes_of "+]+")) /\
  is_Some (load (code (Machine (padded (bytes_of "+]+")) 1 (<[0%nat := 1]> zeroed) 0 [] []))
                (ip (Machine (padded (bytes_of "+]+")) 1 (<[0%nat := 1]> zeroed) 0 [] []))).
Proof.
  apply (ip_stays_in_program (bytes_of "+]+") [] 1).
  - vm_compute. reflexivity.
  - by_vm.
Defined.

(** X10. On a balanced input of fewer than 30000 bytes, a run meets
    undefined behaviour only through the data pointer: if the run is
    undefined, the loop has reached a machine whose [dp] is outside the
    tape. *)
Theorem undefined_only_through_dp (input inp : list Z) (n : nat) :
  Z.of_nat (length input) < capacity ->
  balanced input = true ->
  run n (boot (padded input) inp) = Crashed ->
  exists k m, steps k (boot (padded input) inp) = Next m /\
              ¬ (0 ≤ dp m < capacity).
Proof.
  intros Hlen Hb. apply (crash_through_dp input n); [done|done|].
  apply inside_boot.
Qed.

Lemma undefined_only_through_dp_witness :
  exists k m, steps k (boot (padded (bytes_of "<+")) []) = Next m /\
              ¬ (0 ≤ dp m < capacity).
Proof.
  apply (undefined_only_through_dp (bytes_of "<+") [] 2); vm_compute; reflexivity.
Defined.

Lemma none_of_padded c input i x :
  none_of c input = true -> c ≠ 0 -> load (padded input) i = Some x -> x ≠ c.
Proof.
  intros Hnone Hc Hl ->.
  apply load_padded_nonzero in Hl as [_ Hl]; [|done].
  by destruct (none_of_lookup _ _ _ Hnone Hl).
Qed.

(** X11. A balanced program of fewer than 30000 bytes that contains neither
    '<' nor '>' never meets undefined behaviour, however long it runs and
    whatever its input. *)
Theorem no_moves_no_undefined_behaviour (input inp : list Z) (n : nat) :
  Z.of_nat (length input) < capacity ->
  balanced input = true ->
  none_of GT input = true -> none_of LT input = true ->
  run n (boot (padded input) inp) ≠ Crashed.
Proof.
  intros Hlen Hb HGT HLT Hrun.
  destruct (crash_through_dp input n _ Hlen Hb (inside_boot input inp) Hrun)
    as (k & m & Hk & Hdp).
  assert (code m = padded input /\ dp m = 0) as [_ Hdp0].
  { apply (steps_invariant (fun a => code a = padded input /\ dp a = 0))
      with (n := k) (m := boot (padded input) inp); [|done|done].
    intros a b [Hcode Hd] Hs. split; [by rewrite (code_step _ _ Hs)|].
    destruct (step_Next_inv _ _ Hs) as (c & Hc & _ & _).
    rewrite <- Hd. apply (dp_step a b c); [done| | |done]; rewrite Hcode in Hc.
    - by apply (none_of_padded LT input (ip a)).
    - by apply (none_of_padded GT input (ip a)). }
  apply Hdp. rewrite Hdp0. unfold capacity. lia.
Qed.

Lemma no_moves_no_undefined_behaviour_witness :
  run 1000 (boot (padded (bytes_of "+[-],[.-]")) [3]) ≠ Crashed.
Proof.
  apply (no_moves_no_undefined_behaviour (bytes_of "+[-],[.-]") [3] 1000);
    vm_compute; reflexivity.
Defined.

(** ** Programs without loops *)

Lemma ip_step_plain m m' c :
  load (code m) (ip m) = Some c -> c ≠ LBRACKET -> c ≠ RBRACKET ->
  step m = Next m' -> ip m' = ip m + 1.
Proof.
  intros Hc HL HR Hs.
  destruct (step_Next_inv _ _ Hs) as (c' & Hc' & _ & Hshape).
  rewrite Hc in Hc'. injection Hc' as <-.
  destruct Hshape
    as [[d ->]|[(w & rest & _ & _ & ->)|[(v & _ & ->)|(j & Hj & ->)]]];
    try done.
  by destruct Hj as [->|[[-> _]|[-> _]]].
Qed.

Lemma plain_run_settles input n : forall m,
  Z.of_nat (length input) < capacity ->
  none_of LBRACKET input = true -> none_of RBRACKET input = true ->
  inside input m ->
  Z.of_nat (length input) - ip m < Z.of_nat n ->
  settled (run n m).
Proof.
  induction n as [|n IH]; intros m Hlen HL HR Hin Hfuel.
  { destruct Hin as (_ & ? & _). lia. }
  simpl. destruct (step m) as [m1| |] eqn:Hs; [|done|done].
  destruct (step_Next_inv _ _ Hs) as (c & Hc & _ & _).
  apply IH; [done|done|done|by eapply inside_step|].
  rewrite (ip_step_plain m m1 c); [lia|done| | |done];
    destruct Hin as (Hcode & _ & _); rewrite Hcode in Hc.
  - by apply (none_of_padded LBRACKET input (ip m)).
  - by apply (none_of_padded RBRACKET input (ip m)).
Qed.

Lemma none_of_brackets_nesting l d :
  none_of LBRACKET l = true -> none_of RBRACKET l = true -> 0 ≤ d ->
  nesting LBRACKET RBRACKET l d = Some d.
Proof.
  intros HL HR Hd. induction l as [|c l IH]; [done|].
  simpl in HL, HR. apply andb_prop in HL as [HL1 HL2], HR as [HR1 HR2].
  apply negb_true_iff in HL1, HR1. simpl. rewrite HL1, HR1.
  rewrite (proj2 (Z.ltb_ge d 0)) by done. by apply IH.
Qed.

(** X12. A program without brackets, of fewer than 30000 bytes, is over
    within one turn per byte: after as many turns as it has bytes, plus one
    for the terminator, the run has returned or met undefined behaviour;
    and when it contains no '<' and no '>' either, it has returned. *)
Theorem plain_program_ends (input inp : list Z) :
  Z.of_nat (length input) < capacity ->
  none_of LBRACKET input = true -> none_of RBRACKET input = true ->
  settled (run (S (length input)) (boot (padded input) inp)) /\
  (none_of GT input = true -> none_of LT input = true ->
   exists f, run (S (length input)) (boot (padded input) inp) = Finished f).
Proof.
  intros Hlen HL HR.
  assert (settled (run (S (length input)) (boot (padded input) inp))) as Hset.
  { apply (plain_run_settles input); [done|done|done|apply inside_boot|].
    cbn [boot ip]. lia. }
  split; [done|]. intros HGT HLT.
  assert (balanced input = true) as Hb.
  { unfold balanced. by rewrite none_of_brackets_nesting. }
  destruct (run _ _) as [f| |m] eqn:Hrun; [by exists f| |done].
  destruct (crash_through_dp input _ _ Hlen Hb (inside_boot input inp) Hrun)
    as (k & m & Hk & Hdp).
  assert (code m = padded input /\ dp m = 0) as [_ Hdp0].
  { apply (steps_invariant (fun a => code a = padded input /\ dp a = 0))
      with (n := k) (m := boot (padded input) inp); [|done|done].
    intros a b [Hcode Hd] Hs. split; [by rewrite (code_step _ _ Hs)|].
    destruct (step_Next_inv _ _ Hs) as (c & Hc & _ & _).
    rewrite <- Hd. apply (dp_step a b c); [done| | |done]; rewrite Hcode in Hc.
    - by apply (none_of_padded LT input (ip a)).
    - by apply (none_of_padded GT input (ip a)). }
  destruct Hdp. rewrite Hdp0. unfold capacity. lia.
Qed.

Lemma plain_program_ends_witness :
  settled (run (S (length (bytes_of "+>,.<-")))
               (boot (padded (bytes_of "+>,.<-")) [7])) /\
  exists f, run (S (length (bytes_of "+,.-"))) (boot (padded (bytes_of "+,.-")) [7])
            = Finished f.
Proof.
  split.
  - apply (plain_program_ends (bytes_of "+>,.<-") [7]); vm_compute; reflexivity.
  - apply (plain_program_ends (bytes_of "+,.-") [7]); vm_compute; reflexivity.
Defined.

(** ** A taken bracket, two turns on *)

(** X13. A '[' met on a zero cell is followed, two turns later, by the byte
    after its matching ']': the loop is skipped whole, and nothing but [ip]
    has changed. A ']' met on a non-zero cell is followed, two turns
    later, by the first byte after its matching '[', again with nothing but
    [ip] changed. *)
Theorem taken_bracket_in_two_turns (m : machine) (v j : Z) :
  load (data m) (dp m) = Some v ->
  (load (code m) (ip m) = Some LBRACKET -> v = 0 ->
   flookup (code m) (ip m) = Some j -> steps 2 m = Next (set_ip m (j + 1))) /\
  (load (code m) (ip m) = Some RBRACKET -> v ≠ 0 ->
   blookup (code m) (ip m) = Some j -> steps 2 m = Next (set_ip m (j + 1))).
Proof.
  intros Hv. split.
  - intros Hc -> Hj. cbn [steps].
    rewrite (step_dispatch m LBRACKET Hc), (dispatch_lbracket m 0 Hv), Hj by done.
    simpl. apply flookup_Some in Hj as [_ Hj].
    rewrite (step_dispatch (set_ip m j) RBRACKET Hj) by done.
    by rewrite (dispatch_rbracket (set_ip m j) 0 Hv).
  - intros Hc Hnz Hj. cbn [steps].
    rewrite (step_dispatch m RBRACKET Hc), (dispatch_rbracket m v Hv) by done.
    rewrite (proj2 (Z.eqb_neq v 0)), Hj by done.
    apply blookup_Some in Hj as [_ Hj].
    rewrite (step_dispatch (set_ip m j) LBRACKET Hj) by done.
    rewrite (dispatch_lbracket (set_ip m j) v Hv).
    by rewrite (proj2 (Z.eqb_neq v 0)).
Qed.

Lemma taken_bracket_in_two_turns_witness :
  steps 2 (boot (padded (bytes_of "[>+<]+")) []) =
    Next (set_ip (boot (padded (bytes_of "[>+<]+")) []) (4 + 1)).
Proof.
  destruct (taken_bracket_in_two_turns (boot (padded (bytes_of "[>+<]+")) []) 0 4)
    as [H _]; [vm_compute; reflexivity|].
  apply H; vm_compute; reflexivity.
Defined.

(** ** Instructions that cancel *)

Lemma window_lookup m n (k : nat) c :
  0 ≤ ip m -> window m n !! k = Some c ->
  load (code m) (ip m + Z.of_nat k) = Some c.
Proof.
  intros Hip Hk. unfold window in Hk.
  apply lookup_take_Some in Hk as [Hk _]. rewrite lookup_drop in Hk.
  unfold load. rewrite decide_True by lia.
  by replace (Z.to_nat (ip m + Z.of_nat k)) with (Z.to_nat (ip m) + k)%nat by lia.
Qed.

Lemma window_two m a b :
  0 ≤ ip m -> window m 2 = [a; b] ->
  load (code m) (ip m) = Some a /\ load (code m) (ip m + 1) = Some b.
Proof.
  intros Hip Hw. split.
  - rewrite <- (Z.add_0_r (ip m)). apply (window_lookup m 2 0); [done|by rewrite Hw].
  - apply (window_lookup m 2 1); [done|by rewrite Hw].
Qed.

Lemma steps_two m m1 m2 :
  step m = Next m1 -> step m1 = Next m2 -> steps 2 m = Next m2.
Proof. intros H1 H2. cbn [steps]. by rewrite H1, H2. Qed.

(** X14. Neighbouring instructions that undo each other leave the machine
    as it was, two bytes further on: "><" and "<>" at any [dp], without
    touching the tape (so even at either end of it), and "+-" and "-+" on
    any cell of the tape. *)
Theorem inverse_instructions_cancel (m : machine) :
  0 ≤ ip m ->
  (window m 2 = [GT; LT] \/ window m 2 = [LT; GT] ->
   steps 2 m = Next (set_ip m (ip m + 2))) /\
  (forall v, load (data m) (dp m) = Some v -> is_byte v ->
   window m 2 = [PLUS; MINUS] \/ window m 2 = [MINUS; PLUS] ->
   steps 2 m = Next (set_ip m (ip m + 2))).
Proof.
  intros Hip. split.
  - intros [Hw|Hw]; apply (window_two m _ _ Hip) in Hw as [H1 H2].
    + apply (steps_two m (set_ip (set_dp m (dp m + 1)) (ip m + 1))).
      { by rewrite (step_dispatch m GT H1). }
      rewrite (step_dispatch _ LT) by done.
      destruct m as [co i t p inp out]. unfold dispatch, set_ip, set_dp. simpl.
      do 2 f_equal; lia.
    + apply (steps_two m (set_ip (set_dp m (dp m - 1)) (ip m + 1))).
      { by rewrite (step_dispatch m LT H1). }
      rewrite (step_dispatch _ GT) by done.
      destruct m as [co i t p inp out]. unfold dispatch, set_ip, set_dp. simpl.
      do 2 f_equal; lia.
  - intros v Hv Hbyte Hw.
    destruct (load_Some _ _ _ Hv) as [Hr Hv'].
    assert (forall d, d = 1 \/ d = -1 -> to_char (to_char (v + d) - d) = v) as Hback.
    { intros d Hd. unfold to_char. rewrite Zminus_mod_idemp_l.
      replace (v + d - d) with v by lia. by apply Z.mod_small. }
    assert (forall w, load (<[Z.to_nat (dp m) := w]> (data m)) (dp m) = Some w) as Hread.
    { intros w. unfold load. rewrite decide_True by lia.
      apply list_lookup_insert_eq. lia. }
    destruct Hw as [Hw|Hw]; apply (window_two m _ _ Hip) in Hw as [H1 H2].
    + eapply steps_two.
      { rewrite (step_dispatch m PLUS H1) by done. by apply dispatch_plus. }
      rewrite (step_dispatch _ MINUS) by done.
      rewrite (dispatch_minus _ (to_char (v + 1))) by apply Hread.
      destruct m as [co i t p inp out]. unfold set_ip, set_data.
      cbn [code ip data dp stdin stdout] in *.
      rewrite list_insert_insert_eq, (Hback 1), list_insert_id by auto.
      do 2 f_equal; lia.
    + eapply steps_two.
      { rewrite (step_dispatch m MINUS H1) by done. by apply dispatch_minus. }
      rewrite (step_dispatch _ PLUS) by done.
      rewrite (dispatch_plus _ (to_char (v - 1))) by apply Hread.
      destruct m as [co i t p inp out]. unfold set_ip, set_data.
      cbn [code ip data dp stdin stdout] in *.
      rewrite list_insert_insert_eq.
      replace (to_char (v - 1) + 1) with (to_char (v + -1) - -1)
        by (replace (v + -1) with (v - 1) by lia; lia).
      rewrite (Hback (-1)), list_insert_id by auto.
      do 2 f_equal; lia.
Qed.

Lemma inverse_instructions_cancel_witness :
  steps 2 (boot (padded (bytes_of "<>")) []) =
    Next (set_ip (boot (padded (bytes_of "<>")) []) (0 + 2)) /\
  steps 2 (boot (padded (bytes_of "-+")) []) =
    Next (set_ip (boot (padded (bytes_of "-+")) []) (0 + 2)).
Proof.
  split.
  - destruct (inverse_instructions_cancel (boot (padded (bytes_of "<>")) []))
      as [H _]; [vm_compute; discriminate|].
    apply H. right. vm_compute. reflexivity.
  - destruct (inverse_instructions_cancel (boot (padded (bytes_of "-+")) []))
      as [_ H]; [vm_compute; discriminate|].
    apply (H 0); [vm_compute; reflexivity|unfold is_byte; lia|].
    right. vm_compute. reflexivity.
Defined.

(** ** The loop that clears a cell *)

Lemma steps_add a b m :
  steps (a + b) m = match steps a m with Next m' => steps b m' | o => o end.
Proof.
  revert m. induction a as [|a IH]; intros m; simpl; [done|].
  destruct (step m); [apply IH|done|done].
Qed.

Lemma segment_single code i c :
  0 ≤ i -> load code i = Some c -> segment code i (i + 1) = [c].
Proof.
  intros Hi Hc. apply load_Some in Hc as [_ Hc]. unfold segment.
  replace (Z.to_nat (i + 1 - i)) with 1%nat by lia.
  rewrite (drop_S _ _ _ Hc). done.
Qed.

Section ClearLoop.
(** A machine standing on "[-]" at offset [i], with [dp = p] on the tape. *)
Variables (co : list Z) (i p : Z) (inp out : list Z).
Hypothesis co_small : Z.of_nat (length co) ≤ capacity.
Hypothesis i_nonneg : 0 ≤ i.
Hypothesis at_open : load co i = Some LBRACKET.
Hypothesis at_minus : load co (i + 1) = Some MINUS.
Hypothesis at_close : load co (i + 1 + 1) = Some RBRACKET.

Lemma clear_loop_forward : flookup co i = Some (i + 1 + 1).
Proof.
  apply flookup_iff; [unfold capacity in *; lia|done|].
  split; [lia|]. split; [done|].
  by rewrite (segment_single co (i + 1) MINUS) by (done || lia).
Qed.

Lemma clear_loop_backward : blookup co (i + 1 + 1) = Some i.
Proof.
  apply blookup_iff; [unfold capacity in *; lia|].
  destruct (load_Some _ _ _ at_close) as [? _].
  split; [lia|]. split; [lia|]. split; [done|].
  by rewrite (segment_single co (i + 1) MINUS) by (done || lia).
Qed.

Lemma clear_loop_round t (k : nat) :
  load t p = Some (Z.of_nat (S k)) -> Z.of_nat (S k) < 256 ->
  steps 3 (Machine co i t p inp out) =
    Next (Machine co (if k is O then i + 1 + 1 + 1 else i)
                  (<[Z.to_nat p := Z.of_nat k]> t) p inp out).
Proof.
  intros Hv Hk. destruct (load_Some _ _ _ Hv) as [Hr _].
  cbn [steps].
  rewrite (step_dispatch (Machine co i t p inp out) LBRACKET at_open) by done.
  rewrite (dispatch_lbracket (Machine co i t p inp out) _ Hv).
  rewrite (proj2 (Z.eqb_neq (Z.of_nat (S k)) 0)) by lia.
  unfold set_ip; cbn [code ip data dp stdin stdout].
  rewrite (step_dispatch (Machine co (i + 1) t p inp out) MINUS at_minus) by done.
  rewrite (dispatch_minus (Machine co (i + 1) t p inp out) _ Hv).
  unfold set_ip, set_data; cbn [code ip data dp stdin stdout].
  replace (to_char (Z.of_nat (S k) - 1)) with (Z.of_nat k)
    by (unfold to_char; rewrite Z.mod_small; lia).
  rewrite (step_dispatch (Machine co (i + 1 + 1) _ p inp out) RBRACKET at_close)
    by done.
  rewrite (dispatch_rbracket (Machine co (i + 1 + 1) _ p inp out) (Z.of_nat k)).
  2:{ cbn [data dp]. unfold load. rewrite decide_True by lia.
      apply list_lookup_insert_eq. lia. }
  unfold set_ip; cbn [code ip data dp stdin stdout].
  destruct k as [|k]; [done|].
  rewrite (proj2 (Z.eqb_neq (Z.of_nat (S k)) 0)) by lia.
  by rewrite clear_loop_backward.
Qed.

Lemma clear_loop_rounds (k : nat) : forall t,
  load t p = Some (Z.of_nat (S k)) -> Z.of_nat (S k) < 256 ->
  steps (3 * S k) (Machine co i t p inp out) =
    Next (Machine co (i + 1 + 1 + 1) (<[Z.to_nat p := 0]> t) p inp out).
Proof.
  induction k as [|k IH]; intros t Hv Hk.
  - change (3 * 1)%nat with 3%nat. by rewrite (clear_loop_round t 0 Hv Hk).
  - replace (3 * S (S k))%nat with (3 + 3 * S k)%nat by lia.
    rewrite steps_add, (clear_loop_round t (S k) Hv Hk).
    destruct (load_Some _ _ _ Hv) as [Hr _].
    rewrite IH; [by rewrite list_insert_insert_eq| |lia].
    unfold load. rewrite decide_True by lia.
    apply list_lookup_insert_eq. lia.
Qed.

Lemma clear_loop_skipped t :
  load t p = Some 0 ->
  steps 2 (Machine co i t p inp out) =
    Next (Machine co (i + 1 + 1 + 1) (<[Z.to_nat p := 0]> t) p inp out).
Proof.
  intros Hv. cbn [steps].
  rewrite (step_dispatch (Machine co i t p inp out) LBRACKET at_open) by done.
  rewrite (dispatch_lbracket (Machine co i t p inp out) _ Hv). cbn [code ip Z.eqb].
  rewrite clear_loop_forward. unfold set_ip; cbn [code ip data dp stdin stdout].
  rewrite (step_dispatch (Machine co (i + 1 + 1) t p inp out) RBRACKET at_close)
    by done.
  rewrite (dispatch_rbracket (Machine co (i + 1 + 1) t p inp out) _ Hv). unfold set_ip; cbn [code ip data dp stdin stdout Z.eqb].
  rewrite list_insert_id; [done|]. by apply load_Some in Hv as [_ ?].
Qed.
End ClearLoop.

(** X15. The loop "[-]" clears the current cell and does nothing else:
    started on it with the value [v] in the current cell, the machine is
    just past the loop after [3 * v] turns (2 turns when [v] is 0), with
    that cell at 0 and everything else as it was. *)
Theorem clear_loop_zeroes_cell (m : machine) (v : Z) :
  Z.of_nat (length (code m)) ≤ capacity ->
  0 ≤ ip m ->
  window m 3 = [LBRACKET; MINUS; RBRACKET] ->
  load (data m) (dp m) = Some v -> is_byte v ->
  steps (if v =? 0 then 2 else 3 * Z.to_nat v) m =
    Next (set_ip (set_data m (<[Z.to_nat (dp m) := 0]> (data m))) (ip m + 3)).
Proof.
  intros Hlen Hip Hw Hv Hbyte.
  assert (load (code m) (ip m) = Some LBRACKET) as H0.
  { rewrite <- (Z.add_0_r (ip m)). apply (window_lookup m 3 0); [done|by rewrite Hw]. }
  assert (load (code m) (ip m + 1) = Some MINUS) as H1.
  { apply (window_lookup m 3 1); [done|by rewrite Hw]. }
  assert (load (code m) (ip m + 1 + 1) = Some RBRACKET) as H2.
  { replace (ip m + 1 + 1) with (ip m + Z.of_nat 2) by lia.
    apply (window_lookup m 3 2); [done|by rewrite Hw]. }
  destruct m as [co i t p inp out]. unfold set_ip, set_data.
  cbn [code ip data dp stdin stdout] in *.
  replace (i + 3) with (i + 1 + 1 + 1) by lia.
  destruct (Z.eqb_spec v 0) as [->|Hnz].
  - by apply clear_loop_skipped.
  - unfold is_byte in Hbyte.
    replace (Z.to_nat v) with (S (Z.to_nat (v - 1))) by lia.
    apply clear_loop_rounds; try done.
    + rewrite Hv. f_equal. lia.
    + lia.
Qed.

Lemma clear_loop_zeroes_cell_witness :
  steps (3 * Z.to_nat 5)
        (Machine (padded (bytes_of "[-]")) 0 (<[0%nat := 5]> zeroed) 0 [] []) =
    Next (set_ip (set_data (Machine (padded (bytes_of "[-]")) 0 (<[0%nat := 5]> zeroed) 0 [] [])
                           (<[Z.to_nat 0 := 0]> (<[0%nat := 5]> zeroed)))
                 (0 + 3)).
Proof.
  apply (clear_loop_zeroes_cell
           (Machine (padded (bytes_of "[-]")) 0 (<[0%nat := 5]> zeroed) 0 [] []) 5).
  - vm_compute. discriminate.
  - vm_compute. discriminate.
  - vm_compute. reflexivity.
  - vm_compute. reflexivity.
  - unfold is_byte. lia.
Defined.

(** ** An empty program *)

(** X16. On an empty input, and on an input that starts with a NUL byte,
    [main] returns at once: no turn of the loop is taken, the tape stays
    zeroed and nothing is written. *)
Theorem empty_program_returns_at_once (input : list Z) (fuel : nat) :
  all_bytes input = true ->
  Z.of_nat (length input) ≤ capacity ->
  head input = None \/ head input = Some NUL ->
  main input (S fuel) = Finished (boot (padded input) []).
Proof.
  intros Hb Hlen Hhead. unfold main.
  rewrite cread_padded by (by apply all_bytes_Forall || done).
  cbn [run].
  assert (step (boot (padded input) []) = Exit) as ->; [|done].
  apply step_Exit. cbn [boot code ip].
  destruct input as [|b input]; [|by destruct Hhead as [[=]|[= ->]]].
  change 0 with (Z.of_nat (length (@nil Z))).
  apply load_padded_end. by unfold capacity.
Qed.

Lemma empty_program_returns_at_once_witness :
  main [] 1 = Finished (boot (padded []) []) /\
  main (NUL :: bytes_of "+.") 1 = Finished (boot (padded (NUL :: bytes_of "+.")) []).
Proof.
  split.
  - apply (empty_program_returns_at_once [] 0);
      [vm_compute; reflexivity|vm_compute; discriminate|by left].
  - apply (empty_program_returns_at_once (NUL :: bytes_of "+.") 0);
      [vm_compute; reflexivity|vm_compute; discriminate|by right].
Defined.

(** ** The empty loop *)

Lemma run_never_settles m :
  steps 2 m = Next m -> forall n, ¬ settled (run n m).
Proof.
  intros Hloop n. induction n as [n IH] using lt_wf_ind.
  destruct n as [|[|n]]; [by intros []| |].
  - cbn [steps] in Hloop. cbn [run].
    destruct (step m) as [m1| |]; [by intros []|done|done].
  - cbn [steps] in Hloop. cbn [run].
    destruct (step m) as [m1| |]; [|done|done].
    destruct (step m1) as [m2| |]; [|done|done].
    injection Hloop as ->. apply IH. lia.
Qed.

(** X17. The loop "[]" met on a non-zero cell never ends: two turns bring
    the machine back to where it was, so no run from there returns or meets
    undefined behaviour, however many turns it is granted. *)
Theorem empty_loop_runs_for_ever (m : machine) (v : Z) :
  Z.of_nat (length (code m)) ≤ capacity ->
  0 ≤ ip m ->
  window m 2 = [LBRACKET; RBRACKET] ->
  load (data m) (dp m) = Some v -> v ≠ 0 ->
  steps 2 m = Next m /\ forall n, ¬ settled (run n m).
Proof.
  intros Hlen Hip Hw Hv Hnz.
  apply (window_two m _ _ Hip) in Hw as [H0 H1].
  assert (steps 2 m = Next m) as Hloop; [|split; [done|by apply run_never_settles]].
  apply (steps_two m (set_ip m (ip m + 1))).
  - rewrite (step_dispatch m LBRACKET H0), (dispatch_lbracket m v Hv) by done.
    by rewrite (proj2 (Z.eqb_neq v 0)).
  - rewrite (step_dispatch (set_ip m (ip m + 1)) RBRACKET H1) by done.
    rewrite (dispatch_rbracket (set_ip m (ip m + 1)) v Hv).
    rewrite (proj2 (Z.eqb_neq v 0)) by done.
    assert (blookup (code m) (ip m + 1) = Some (ip m)) as Hback.
    { apply blookup_iff; [unfold capacity in *; lia|].
      destruct (load_Some _ _ _ H1) as [? _].
      split; [lia|]. split; [cbn [code]; lia|]. split; [done|].
      unfold segment. by replace (Z.to_nat (ip m + 1 - (ip m + 1))) with 0%nat by lia. }
    cbn [set_ip code ip]. rewrite Hback. by destruct m.
Qed.

Lemma empty_loop_runs_for_ever_witness :
  ¬ settled (run 1000 (Machine (padded (bytes_of "+[]")) 1
                               (<[0%nat := 1]> zeroed) 0 [] [])).
Proof.
  refine (proj2 (empty_loop_runs_for_ever
           (Machine (padded (bytes_of "+[]")) 1 (<[0%nat := 1]> zeroed) 0 [] []) 1
           _ _ _ _ _) 1000%nat).
  - vm_compute. discriminate.
  - vm_compute. discriminate.
  - vm_compute. reflexivity.
  - vm_compute. reflexivity.
  - discriminate.
Defined.

(** ** Reading and writing *)

(** X18. ",." copies one byte from the input to the output and keeps it in
    the current cell; at end of input it writes the byte 255 instead. *)
Theorem comma_dot_echoes (m : machine) :
  0 ≤ ip m ->
  window m 2 = [COMMA; DOT] ->
  0 ≤ dp m < Z.of_nat (length (data m)) ->
  (forall b rest, stdin m = b :: rest -> is_byte b ->
     steps 2 m =
       Next (Machine (code m) (ip m + 2) (<[Z.to_nat (dp m) := b]> (data m)) (dp m)
                     rest (stdout m ++ [b]))) /\
  (stdin m = [] ->
     steps 2 m =
       Next (Machine (code m) (ip m + 2) (<[Z.to_nat (dp m) := 255]> (data m)) (dp m)
                     [] (stdout m ++ [255]))).
Proof.
  intros Hip Hw Hdp. apply (window_two m _ _ Hip) in Hw as [H0 H1].
  assert (forall cur rest, getchar (stdin m) = (cur, rest) ->
            steps 2 m =
              Next (Machine (code m) (ip m + 2)
                            (<[Z.to_nat (dp m) := to_char cur]> (data m)) (dp m)
                            rest (stdout m ++ [to_char cur]))) as Hboth.
  { intros cur rest Hg.
    eapply steps_two.
    - rewrite (step_dispatch m COMMA H0) by done. unfold dispatch. simpl.
      rewrite Hg, store_in_range by done. reflexivity.
    - rewrite (step_dispatch _ DOT) by done.
      unfold dispatch, set_ip, set_data, set_stdin, set_stdout. simpl.
      unfold load. rewrite decide_True by lia.
      rewrite list_lookup_insert_eq by lia.
      do 2 f_equal. lia. }
  split.
  - intros b rest Hin Hb. rewrite (Hboth b rest) by (by rewrite Hin).
    by rewrite to_char_byte.
  - intros Hin. by rewrite (Hboth EOF []) by (by rewrite Hin).
Qed.

Lemma comma_dot_echoes_witness :
  steps 2 (boot (padded (bytes_of ",.")) [65; 66]) =
    Next (Machine (code (boot (padded (bytes_of ",.")) [65; 66])) (0 + 2)
                  (<[Z.to_nat 0 := 65]> zeroed) 0 [66] ([] ++ [65])).
Proof.
  destruct (comma_dot_echoes (boot (padded (bytes_of ",.")) [65; 66])) as [H _].
  - vm_compute. discriminate.
  - vm_compute. reflexivity.
  - vm_compute. split; [discriminate|reflexivity].
  - apply (H 65 [66]); [reflexivity|unfold is_byte; lia].
Defined.
